(** * HypoDD PHA reader and writer (obspy/io/hypodd/pha.py)

    A shallow embedding of [_block2event], [_is_pha], [_read_pha],
    [_map_eventid] and [_write_pha], and the properties of the
    specification that can be stated on it.

    Conventions.
    - Python [str] and [bytes] are Rocq strings; the text methods
      ([isdigit], [split], [strip], [lower], ...) are given on ASCII.
    - Python [float] is the primitive binary64 type of Rocq, so [==], [>],
      [*] and [/] are the IEEE operations the interpreter performs.
    - A [dict] is an insertion-ordered association list, a [set] a [gset].
    - A raised exception is an explicit outcome [Raise e]; [assert]
      statements are executed.
    - What the file imports (builtins, [math], [numpy], the event model and
      [UTCDateTime] of obspy) is a parameter, the class [Runtime]. *)

From Stdlib Require Import PrimFloat ZArith NArith Ascii String List Lia.
From stdpp Require Import gmap strings pretty list.

Open Scope string_scope.
Open Scope nat_scope.

(** ** Outcomes of Python code *)

Inductive exn : Type :=
  | ValueError | IndexError | KeyError | TypeError | AttributeError
  | AssertionError | OSError.

(** [Timeout] is the outcome of a loop model that ran out of fuel; the
    development proves that no modelled loop produces it. *)
Inductive outcome (A : Type) : Type :=
  | Ret (a : A)
  | Raise (e : exn)
  | Timeout.
Arguments Ret {A} a.
Arguments Raise {A} e.
Arguments Timeout {A}.

#[global] Instance outcome_ret : MRet outcome := λ A a, Ret a.
#[global] Instance outcome_bind : MBind outcome := λ A B k m,
  match m with
  | Ret a => k a
  | Raise e => Raise e
  | Timeout => Timeout
  end.

#[global] Instance outcome_fmap : FMap outcome := λ A B f m,
  match m with
  | Ret a => Ret (f a)
  | Raise e => Raise e
  | Timeout => Timeout
  end.

(** ** Python text methods, on ASCII *)

Module Py.

Definition char_isdigit (c : ascii) : bool :=
  Nat.leb 48 (nat_of_ascii c) && Nat.leb (nat_of_ascii c) 57.

Fixpoint all_chars (p : ascii → bool) (s : string) : bool :=
  match s with
  | EmptyString => true
  | String c r => p c && all_chars p r
  end.

(** [s.isdigit()]: every character is a digit and there is at least one. *)
Definition isdigit (s : string) : bool :=
  match s with
  | EmptyString => false
  | String _ _ => all_chars char_isdigit s
  end.

(** [''.join(char for char in s if p(char))] *)
Fixpoint join_if (p : ascii → bool) (s : string) : string :=
  match s with
  | EmptyString => EmptyString
  | String c r => if p c then String c (join_if p r) else join_if p r
  end.

(** [s[:n]] *)
Fixpoint slice_to (n : nat) (s : string) : string :=
  match n, s with
  | S m, String c r => String c (slice_to m r)
  | _, _ => EmptyString
  end.

(** [len(s)] *)
Definition len (s : string) : nat := String.length s.

(** [str(n)] for a non-negative integer. *)
Definition str (n : N) : string := pretty n.

(** [str(z)] for an integer, and ['{:06d}'.format(z)]. *)
Definition str_int (z : Z) : string := pretty z.

Fixpoint zeros (n : nat) : string :=
  match n with O => EmptyString | S m => String "0" (zeros m) end.

Definition format_06d (z : Z) : string :=
  if (z <? 0)%Z
  then "-" ++ zeros (5 - String.length (pretty (Z.abs z))) ++ pretty (Z.abs z)
  else zeros (6 - String.length (pretty z)) ++ pretty z.

(** [str.isspace] on one character: tab, line feed, vertical tab, form
    feed, carriage return, the four separators 0x1c-0x1f and space. *)
Definition str_isspace (c : ascii) : bool :=
  let n := nat_of_ascii c in
  (Nat.leb 9 n && Nat.leb n 13) || (Nat.leb 28 n && Nat.leb n 32).

(** [bytes.isspace] on one byte: tab, line feed, vertical tab, form
    feed, carriage return and space. *)
Definition bytes_isspace (c : ascii) : bool :=
  let n := nat_of_ascii c in
  (Nat.leb 9 n && Nat.leb n 13) || Nat.eqb n 32.

(** [s.split()]: the maximal runs of non-space characters. [tok] is the
    run being read, in reverse. *)
Fixpoint split_go (sp : ascii → bool) (tok : list ascii) (s : string)
    : list string :=
  let flush rest :=
    match tok with
    | [] => rest
    | _ => string_of_list_ascii (rev tok) :: rest
    end in
  match s with
  | EmptyString => flush []
  | String c r =>
      if sp c then flush (split_go sp [] r) else split_go sp (c :: tok) r
  end.

Definition split (sp : ascii → bool) (s : string) : list string :=
  split_go sp [] s.

(** [s.lstrip()], [s.rstrip()] and [s.strip()] *)
Fixpoint lstrip (sp : ascii → bool) (s : string) : string :=
  match s with
  | EmptyString => EmptyString
  | String c r => if sp c then lstrip sp r else s
  end.

Fixpoint rstrip (sp : ascii → bool) (s : string) : string :=
  match s with
  | EmptyString => EmptyString
  | String c r =>
      match rstrip sp r with
      | EmptyString => if sp c then EmptyString else String c EmptyString
      | r' => String c r'
      end
  end.

Definition strip (sp : ascii → bool) (s : string) : string :=
  rstrip sp (lstrip sp s).

(** [s.split(sep)] for a one-character separator: never empty. *)
Fixpoint split_on_go (sep : ascii) (tok : list ascii) (s : string)
    : list string :=
  match s with
  | EmptyString => [string_of_list_ascii (rev tok)]
  | String c r =>
      if Ascii.eqb c sep
      then string_of_list_ascii (rev tok) :: split_on_go sep [] r
      else split_on_go sep (c :: tok) r
  end.

Definition split_on (sep : ascii) (s : string) : list string :=
  split_on_go sep [] s.

(** [s.splitlines()]: lines end at line feed, carriage return (with the
    line feed that follows it, if any), vertical tab, form feed and the
    separators 0x1c-0x1e; no empty line is added after a final line end. *)
Definition is_linebreak (c : ascii) : bool :=
  let n := nat_of_ascii c in
  (Nat.leb 10 n && Nat.leb n 13) || (Nat.leb 28 n && Nat.leb n 30).

Fixpoint splitlines_go (tok : list ascii) (after_cr : bool) (s : string)
    : list string :=
  match s with
  | EmptyString =>
      match tok with [] => [] | _ => [string_of_list_ascii (rev tok)] end
  | String c r =>
      if after_cr && Ascii.eqb c "010" then splitlines_go [] false r
      else if is_linebreak c
      then string_of_list_ascii (rev tok)
           :: splitlines_go [] (Ascii.eqb c "013") r
      else splitlines_go (c :: tok) false r
  end.

Definition splitlines (s : string) : list string := splitlines_go [] false s.

(** [s.startswith(p)] *)
Definition startswith (p s : string) : bool := String.prefix p s.

(** [s.lower()] *)
Definition char_lower (c : ascii) : ascii :=
  let n := nat_of_ascii c in
  if Nat.leb 65 n && Nat.leb n 90 then ascii_of_nat (n + 32) else c.

Fixpoint lower (s : string) : string :=
  match s with
  | EmptyString => EmptyString
  | String c r => String (char_lower c) (lower r)
  end.

(** [c in s] for a character. *)
Fixpoint contains (c : ascii) (s : string) : bool :=
  match s with
  | EmptyString => false
  | String c' r => Ascii.eqb c' c || contains c r
  end.

(** [f.readline()] on a binary file at its start: up to and including
    the first line feed. *)
Fixpoint readline (s : string) : string :=
  match s with
  | EmptyString => EmptyString
  | String c r =>
      if Ascii.eqb c "010" then String c EmptyString
      else String c (readline r)
  end.

(** [l[i:j]] on a list. *)
Definition slice {A : Type} (i j : nat) (l : list A) : list A :=
  take (j - i) (drop i l).

End Py.

(** ** Dictionaries

    Insertion-ordered, as in Python: [d[k] = v] overwrites the value of an
    existing key in place and appends a new key at the end. *)

Module Dict.

Definition t (V : Type) : Type := list (string * V).

Section Ops.
Context {V : Type}.

(** [d.get(k)] *)
Fixpoint get (d : t V) (k : string) : option V :=
  match d with
  | [] => None
  | (k', v) :: r => if String.eqb k' k then Some v else get r k
  end.

(** [d.get(k, default)] *)
Definition get_default (d : t V) (k : string) (default : V) : V :=
  match get d k with Some v => v | None => default end.

(** [d[k] = v] *)
Fixpoint set (d : t V) (k : string) (v : V) : t V :=
  match d with
  | [] => [(k, v)]
  | (k', v') :: r =>
      if String.eqb k' k then (k', v) :: r else (k', v') :: set r k v
  end.

Definition values (d : t V) : list V := map snd d.
Definition items (d : t V) : list (string * V) := d.
Definition len (d : t V) : nat := length d.
End Ops.

(** [{v: k for k, v in d.items()}] *)
Definition inverted (d : t string) : t string :=
  fold_left (λ acc kv, set acc (snd kv) (fst kv)) (items d) [].

End Dict.

(** ** What the module imports

    [pha.py] calls Python builtins, [math.cos], [numpy.deg2rad],
    [UTCDateTime] and helpers of obspy.  None of them is part of the file;
    they are the fields of [Runtime], and every result below holds for any
    runtime. *)

Class Runtime : Type := {
  (** [float(s)] and [int(s)]; [None] when they raise [ValueError] *)
  py_float : string → option float;
  py_int : string → option Z;
  (** [math.cos] and [numpy.deg2rad] *)
  cos : float → float;
  deg2rad : float → float;
  (** ['{}'.format(x)] and ['{:.4f}'.format(x)] on a float *)
  str_float : float → string;
  format_4f : float → string;
  (** [template.format(a, b)] *)
  str_format2 : string → string → string → outcome string;
  (** [UTCDateTime(yr, mo, dy, hr, mn, sc, strict=False)], [t + seconds],
      [t1 - t2] and the calendar fields of a time stamp *)
  UTCDateTime : Type;
  utc_lenient : Z → Z → Z → Z → Z → float → option UTCDateTime;
  utc_add : UTCDateTime → float → outcome UTCDateTime;
  utc_sub : UTCDateTime → UTCDateTime → float;
  utc_year : UTCDateTime → Z;
  utc_month : UTCDateTime → Z;
  utc_day : UTCDateTime → Z;
  utc_hour : UTCDateTime → Z;
  utc_minute : UTCDateTime → Z;
  utc_second : UTCDateTime → Z;
  utc_microsecond : UTCDateTime → Z;
  (** [WaveformStreamID(seed_string=s)] and its [station_code] *)
  WaveformStreamID : Type;
  waveform_of_seed_string : string → WaveformStreamID;
  station_code : WaveformStreamID → option string;
  (** the identifier [ResourceIdentifier()] generates for the n-th object
      created without one *)
  generated_id : nat → string;
  (** [obspy.core.util.misc._seed_id_map(inventory, id_map)] *)
  Inventory : Type;
  _seed_id_map : option Inventory → option (Dict.t string) → Dict.t string
}.

(** What a process can read: [open(name, 'rb')] gives the bytes of a file,
    [io.open(name, 'r', encoding=enc)] its decoded text; [None] when the
    call raises. *)
Record FileSystem : Type := {
  read_bytes : string → option string;
  read_text : string → string → option string
}.

(** Dictionaries the caller owns live in a heap, and are passed by
    address. *)
Abbreviation heap := (gmap nat (Dict.t string)).

Definition alloc (h : heap) (d : Dict.t string) : nat * heap :=
  let l := fresh (dom h) in (l, <[ l := d ]> h).

(** [DEG2KM = 111.2], the binary64 value nearest to it. *)
Definition DEG2KM : float := 0x1.bcccccccccccdp+6%float.

Definition need {A : Type} (e : exn) (o : option A) : outcome A :=
  match o with Some a => Ret a | None => Raise e end.

(** ['{}'.format(x)] on an optional attribute. *)
Definition str_opt {A : Type} (f : A → string) (o : option A) : string :=
  match o with Some a => f a | None => "None" end.

(** [max(a, b)] keeps [a] unless [b > a]. *)
Definition py_max (a b : float) : float :=
  if PrimFloat.ltb a b then b else a.

Section Model.
Context `{Runtime}.

(** *** The event model

    Modelled from the spec: the classes of [obspy.core.event] (Event,
    Origin, Pick, Arrival, Magnitude and the quality summary of an origin)
    as records, with the attributes [pha.py] reads or sets.  Attributes the
    event model allows to be missing are options; an error attribute is the
    [uncertainty] of its [QuantityError]. *)

Record Pick : Type := {
  pick_resource_id : string;
  waveform_id : WaveformStreamID;
  phase_hint : option string;
  pick_time : UTCDateTime
}.

Record Arrival : Type := {
  phase : string;
  pick_id : string;
  time_weight : option float
}.

Record OriginQuality : Type := {
  associated_phase_count : nat;
  standard_error : option float
}.

Record Origin : Type := {
  arrivals : list Arrival;
  origin_resource_id : string;
  quality : option OriginQuality;
  latitude : float;
  longitude : float;
  depth : option float;
  latitude_errors : option float;
  longitude_errors : option float;
  depth_errors : option float;
  time : UTCDateTime
}.

Record Magnitude : Type := {
  mag : float;
  magnitude_resource_id : string
}.

Record Event : Type := {
  resource_id : string;
  picks : list Pick;
  origins : list Origin;
  magnitudes : list Magnitude;
  preferred_origin_id : option string;
  preferred_magnitude_id : option string
}.

Definition Catalog : Type := list Event.

(** Modelled from the spec: [Magnitude(mag=mg, ...)] is handed the text
    of the field; the event model stores a magnitude as a scalar, so the
    constructor converts it with [float] and raises when that fails. *)
Definition new_Magnitude (mg rid : string) : outcome Magnitude :=
  m ← need ValueError (py_float mg);
  Ret {| mag := m; magnitude_resource_id := rid |}.

(** *** [_block2event] *)

(** One iteration of [for line in lines[1:]]; [n] counts the
    identifiers generated so far. *)
Definition read_pick_line (seed_map : Dict.t string) (id_default : string)
    (ph2comp : Dict.t string) (time : UTCDateTime) (line : string)
    (n : nat) : outcome (Pick * Arrival * nat) :=
  match Py.split Py.str_isspace line with
  | [sta; reltime; weight; phase] =>
      let comp := Dict.get_default ph2comp phase "" in
      let wid := Dict.get_default seed_map sta id_default in
      seed ← str_format2 wid sta comp;
      let _waveform_id := waveform_of_seed_string seed in
      rel ← need ValueError (py_float reltime);
      t ← utc_add time rel;
      let pick := {| pick_resource_id := generated_id n;
                     waveform_id := _waveform_id;
                     phase_hint := Some phase;
                     pick_time := t |} in
      w ← need ValueError (py_float weight);
      let arrival := {| phase := phase;
                        pick_id := pick_resource_id pick;
                        time_weight := Some w |} in
      Ret (pick, arrival, S n)
  | _ => Raise ValueError
  end.

Fixpoint read_pick_lines (seed_map : Dict.t string) (id_default : string)
    (ph2comp : Dict.t string) (time : UTCDateTime) (lines : list string)
    (n : nat) : outcome (list Pick * list Arrival * nat) :=
  match lines with
  | [] => Ret ([], [], n)
  | line :: rest =>
      '(pick, arrival, n1) ←
        read_pick_line seed_map id_default ph2comp time line n;
      '(picks, arrivals, n2) ←
        read_pick_lines seed_map id_default ph2comp time rest n1;
      Ret (pick :: picks, arrival :: arrivals, n2)
  end.

Definition _block2event (h : heap) (block : string)
    (seed_map : Dict.t string) (id_default : string)
    (ph2comp : Dict.t string) (eventid_map : option nat) (n : nat)
    : outcome (Event * nat) :=
  match Py.splitlines (Py.strip Py.str_isspace block) with
  | [] => Raise IndexError
  | header :: lines =>
    match Py.split Py.str_isspace header with
    | [yr; mo; dy; hr; mn; sc; la; lo; dp; mg; eh; ez; rms; id_] =>
      id_ ← match eventid_map with
            | None => Ret id_
            | Some l =>
                d ← need TypeError (h !! l);
                Ret (match Dict.get d id_ with
                     | Some mapped => mapped
                     | None => id_
                     end)
            end;
      yr ← need ValueError (py_int yr);
      mo ← need ValueError (py_int mo);
      dy ← need ValueError (py_int dy);
      hr ← need ValueError (py_int hr);
      mn ← need ValueError (py_int mn);
      sc ← need ValueError (py_float sc);
      time ← need ValueError (utc_lenient yr mo dy hr mn sc);
      eh ← need ValueError (py_float eh);
      let laterr :=
        if PrimFloat.eqb eh 0 then None else Some (eh / DEG2KM)%float in
      lonerr ← match laterr with
               | None => Ret None
               | Some laterr =>
                   la ← need ValueError (py_float la);
                   Ret (if PrimFloat.ltb 89 la then None
                        else Some (laterr / cos (deg2rad la))%float)
               end;
      ez ← need ValueError (py_float ez);
      let ez := if PrimFloat.eqb ez 0 then None else Some (ez * 1000)%float in
      rms ← need ValueError (py_float rms);
      let rms := if PrimFloat.eqb rms 0 then None else Some rms in
      '(picks, arrivals, n) ←
        read_pick_lines seed_map id_default ph2comp time lines n;
      let qu := {| associated_phase_count := length picks;
                   standard_error := rms |} in
      la ← need ValueError (py_float la);
      lo ← need ValueError (py_float lo);
      dp ← need ValueError (py_float dp);
      let origin := {| arrivals := arrivals;
                       origin_resource_id := "smi:local/origin/" ++ id_;
                       quality := Some qu;
                       latitude := la;
                       longitude := lo;
                       depth := Some (1000 * dp)%float;
                       latitude_errors := laterr;
                       longitude_errors := lonerr;
                       depth_errors := ez;
                       time := time |} in
      '(magnitudes, preferred_magnitude_id) ←
        (if String.eqb (Py.lower mg) "nan" then Ret ([], None)
         else
           magnitude ← new_Magnitude mg ("smi:local/magnitude/" ++ id_);
           Ret ([magnitude], Some (magnitude_resource_id magnitude)));
      Ret ({| resource_id := "smi:local/event/" ++ id_;
              picks := picks;
              origins := [origin];
              magnitudes := magnitudes;
              preferred_origin_id := Some (origin_resource_id origin);
              preferred_magnitude_id := preferred_magnitude_id |}, n)
    | _ => Raise ValueError
    end
  end.

(** *** [_is_pha] *)

Definition is_pha_body (fs : FileSystem) (filename : string)
    : outcome unit :=
  content ← need OSError (read_bytes fs filename);
  let line := Py.readline content in
  if negb (Py.startswith "#" line) then Raise AssertionError else
  if negb (Nat.eqb (length (Py.split Py.bytes_isspace line)) 15)
  then Raise AssertionError else
  match Py.slice 1 7 (Py.split Py.bytes_isspace line) with
  | [yr; mo; dy; hr; mn; sc] =>
      yr ← need ValueError (py_int yr);
      mo ← need ValueError (py_int mo);
      dy ← need ValueError (py_int dy);
      hr ← need ValueError (py_int hr);
      mn ← need ValueError (py_int mn);
      sc ← need ValueError (py_float sc);
      _ ← need ValueError (utc_lenient yr mo dy hr mn sc);
      Ret ()
  | _ => Raise ValueError
  end.

(** [try: ... except Exception: return False; else: return True] *)
Definition _is_pha (fs : FileSystem) (filename : string) : bool :=
  match is_pha_body fs filename with
  | Ret _ => true
  | Raise _ => false
  | Timeout => false
  end.

(** *** [_read_pha] *)

Fixpoint read_blocks (h : heap) (blocks : list string)
    (seed_map : Dict.t string) (id_default : string)
    (ph2comp : Dict.t string) (eventid_map : option nat) (n : nat)
    : outcome (list Event * nat) :=
  match blocks with
  | [] => Ret ([], n)
  | block :: rest =>
      '(event, n1) ←
        _block2event h block seed_map id_default ph2comp eventid_map n;
      '(events, n2) ←
        read_blocks h rest seed_map id_default ph2comp eventid_map n1;
      Ret (event :: events, n2)
  end.

(** The caller's [eventid_map], when given, is the address of a
    dictionary in the heap.  The function returns the heap it leaves
    behind together with its outcome. *)
Definition _read_pha (fs : FileSystem) (h : heap) (filename : string)
    (inventory : option Inventory) (id_map : option (Dict.t string))
    (id_default : string) (ph2comp : Dict.t string)
    (eventid_map : option nat) (encoding : string) (n : nat)
    : heap * outcome (Catalog * nat) :=
  let step1 : outcome (heap * option nat) :=
    match eventid_map with
    | None => Ret (h, None)
    | Some l =>
        d ← need AttributeError (h !! l);
        let '(l', h') := alloc h (Dict.inverted d) in
        Ret (h', Some l')
    end in
  match step1 with
  | Ret (h, eventid_map) =>
      let seed_map := _seed_id_map inventory id_map in
      (h,
       text ← need OSError (read_text fs filename encoding);
       read_blocks h (tail (Py.split_on "#" text)) seed_map id_default
         ph2comp eventid_map n)
  | Raise e => (h, Raise e)
  | Timeout => (h, Timeout)
  end.

End Model.

(** The tokens of the first line of a block, as [_block2event] splits it. *)
Definition header_tokens (block : string) : list string :=
  match Py.splitlines (Py.strip Py.str_isspace block) with
  | [] => []
  | header :: _ => Py.split Py.str_isspace header
  end.

(** ** The identifier canonicalizer [_map_eventid] *)

(** The three mutable objects a write session passes to every call:
    [args_map_eventid = (eventid_map, set(eventid_map.values()), [1000])]. *)
Record session : Type := Session {
  eventid_map : Dict.t string;
  used_ids : gset string;
  counter : N
}.

(** What a call returns: the early [return idpha] gives a bare string, the
    final [return idpha, eventid_map] a pair whose second component is the
    session's table itself. *)
Inductive returned_value : Type :=
  | RStr (idpha : string)
  | RPair (idpha : string).

Definition idpha_of (r : returned_value) : string :=
  match r with RStr i => i | RPair i => i end.

(** [while idpha == '' or idpha in used_ids:
       idpha = str(counter[0]); counter[0] += 1] *)
Fixpoint while_claimed (fuel : nat) (used : gset string) (idpha : string)
    (c : N) {struct fuel} : option (string * N) :=
  if String.eqb idpha "" || bool_decide (idpha ∈ used) then
    match fuel with
    | O => None
    | S fuel' => while_claimed fuel' used (Py.str c) (c + 1)%N
    end
  else Some (idpha, c).

Definition _map_eventid (evid : string) (s : session)
    : outcome (returned_value * session) :=
  let idpha := evid in
  match Dict.get (eventid_map s) evid with
  | Some idpha =>
      if negb (Py.isdigit idpha) || Nat.ltb 9 (Py.len idpha)
      then Raise ValueError
      else Ret (RStr idpha, s)
  | None =>
      let idpha :=
        if negb (Py.isdigit idpha) then Py.join_if Py.char_isdigit idpha
        else idpha in
      let idpha :=
        if Nat.ltb 9 (Py.len idpha) then Py.slice_to 9 idpha else idpha in
      match while_claimed (S (size (used_ids s))) (used_ids s) idpha
              (counter s) with
      | None => Timeout
      | Some (idpha, c) =>
          let m :=
            if negb (String.eqb idpha evid)
            then Dict.set (eventid_map s) evid idpha
            else eventid_map s in
          Ret (RPair idpha,
               {| eventid_map := m;
                  used_ids := {[ idpha ]} ∪ used_ids s;
                  counter := c |})
      end
  end.

(** The state a write session starts from when no table is supplied. *)
Definition initial_session : session :=
  {| eventid_map := []; used_ids := ∅; counter := 1000 |}.

(** Feeding a sequence of source ids through the canonicalizer, in order,
    collecting the id each call hands back. *)
Fixpoint feed (evids : list string) (s : session)
    : outcome (list string * session) :=
  match evids with
  | [] => Ret ([], s)
  | evid :: rest =>
      '(r, s1) ← _map_eventid evid s;
      '(outs, s2) ← feed rest s1;
      Ret (idpha_of r :: outs, s2)
  end.

(** ** [_write_pha] *)

(** The local variable [eventid_map] of [_write_pha]: the session's table,
    or the one-character string a two-character bare result unpacks to. *)
Inductive local_map : Type :=
  | LTable
  | LChar (c : string).

(** What [_write_pha] returns. *)
Inductive write_result : Type :=
  | RNone
  | RTable (d : Dict.t string)
  | RChar (c : string).

Record write_state : Type := {
  lines : list string;
  warnings : list string;
  sess : session;
  local : local_map
}.

(** [evid, eventid_map = _map_eventid(evid, *args_map_eventid)]: a pair
    unpacks into its components, a string into its characters when it has
    exactly two. *)
Definition unpack2 (r : returned_value) : outcome (string * local_map) :=
  match r with
  | RPair idpha => Ret (idpha, LTable)
  | RStr (String a (String b EmptyString)) =>
      Ret (String a EmptyString, LChar (String b EmptyString))
  | RStr _ => Raise ValueError
  end.

(** [evid.split('/')[-1] if '/' in evid else evid] *)
Definition last_component (evid : string) : string :=
  if Py.contains "/" evid
  then List.last (Py.split_on "/" evid) evid
  else evid.

(** [warn(msg)] *)
Definition add_warning (msg : string) (st : write_state) : write_state :=
  {| lines := lines st; warnings := warnings st ++ [msg];
     sess := sess st; local := local st |}.

Section Writer.
Context `{Runtime}.

(** [event.preferred_origin()] and [event.preferred_magnitude()] resolve
    the preferred identifiers of an event; [None] stands for a result
    that is [None] or false. *)
Context (preferred_origin : Event → option Origin)
        (preferred_magnitude : Event → option Magnitude).

(** [a or l[0]] *)
Definition or_first {A : Type} (a : option A) (l : list A) : outcome A :=
  match a with
  | Some x => Ret x
  | None => need IndexError (head l)
  end.

Definition PHA1 (o : Origin) (depth : float) (mag : float) (he ve rms : float)
    (evid : string) : string :=
  "#  " ++ Py.str_int (utc_year (time o)) ++
  "    " ++ Py.str_int (utc_month (time o)) ++
  "   " ++ Py.str_int (utc_day (time o)) ++
  "    " ++ Py.str_int (utc_hour (time o)) ++
  "   " ++ Py.str_int (utc_minute (time o)) ++
  "   " ++ Py.str_int (utc_second (time o)) ++
  "." ++ Py.format_06d (utc_microsecond (time o)) ++
  "   " ++ str_float (latitude o) ++
  "   " ++ str_float (longitude o) ++
  "   " ++ str_float depth ++
  "   " ++ str_float mag ++
  "  " ++ str_float he ++
  "   " ++ str_float ve ++
  "   " ++ str_float rms ++
  "       " ++ evid ++ String "010" EmptyString.

Definition PHA2 (p : Pick) (relt : float) (weight : option float) : string :=
  str_opt id (station_code (waveform_id p)) ++
  "  " ++ format_4f relt ++
  "  " ++ str_opt str_float weight ++
  "  " ++ str_opt id (phase_hint p) ++ String "010" EmptyString.

(** [weights = {}; for arrival in ori.arrivals:
      weights[str(arrival.pick_id)] = arrival.time_weight] *)
Definition weights_of (arrs : list Arrival) : Dict.t (option float) :=
  fold_left (λ w a, Dict.set w (pick_id a) (time_weight a)) arrs [].

(** The body of [for event in catalog]. *)
Definition write_event (event : Event) (st : write_state)
    : outcome write_state :=
  match or_first (preferred_origin event) (origins event) with
  | Raise IndexError =>
      Ret (add_warning "Skip writing events with missing origin" st)
  | Raise e => Raise e
  | Timeout => Timeout
  | Ret ori =>
    let '(mag, warned) :=
      match or_first (preferred_magnitude event) (magnitudes event) with
      | Ret m => (mag m, [])
      | _ => (0%float, ["Missing magnitude will be set to 0.0"])
      end in
    let evid := resource_id event in
    let evid := last_component evid in
    '(r, s) ← _map_eventid evid (sess st);
    '(evid, eventid_map) ← unpack2 r;
    q ← need AttributeError (quality ori);
    let rms := standard_error q in
    let rms := match rms with Some r => r | None => 0%float end in
    let he1 := latitude_errors ori in
    let he2 := longitude_errors ori in
    let shortening := cos (deg2rad (latitude ori)) in
    let he :=
      py_max (match he1 with None => 0 | Some e => e * DEG2KM end)
             (match he2 with
              | None => 0
              | Some e => e * DEG2KM * shortening
              end)%float in
    let ve := depth_errors ori in
    let ve := match ve with None => 0 | Some v => v / 1000 end%float in
    d ← need TypeError (depth ori);
    let line := PHA1 ori (d / 1000)%float mag he ve rms evid in
    let weights := weights_of (arrivals ori) in
    let pick_lines :=
      map (λ pick,
             let weight :=
               Dict.get_default weights (pick_resource_id pick)
                 (Some 1%float) in
             PHA2 pick (utc_sub (pick_time pick) (time ori)) weight)
          (picks event) in
    Ret {| lines := lines st ++ line :: pick_lines;
           warnings := warnings st ++ warned;
           sess := s;
           local := eventid_map |}
  end.

Fixpoint write_events (catalog : list Event) (st : write_state)
    : outcome write_state :=
  match catalog with
  | [] => Ret st
  | event :: rest => st' ← write_event event st; write_events rest st'
  end.

(** [_write_pha(catalog, filename, eventid_map)].  The outcome carries the
    text handed to the destination in one [write] call, the warnings
    issued, the value returned and the session's final state (its table is
    the dictionary the caller supplied, updated in place). *)
Definition _write_pha (catalog : list Event)
    (supplied : option (Dict.t string))
    : outcome (string * list string * write_result * session) :=
  let table := match supplied with None => [] | Some d => d end in
  let args_map_eventid :=
    Session table (list_to_set (Dict.values table)) 1000 in
  st ← write_events catalog
         {| lines := []; warnings := []; sess := args_map_eventid;
            local := LTable |};
  let data := String.concat "" (lines st) in
  let result :=
    match local st with
    | LTable =>
        let table := eventid_map (sess st) in
        if Nat.eqb (Dict.len table) 0 then RNone else RTable table
    | LChar c => if Nat.eqb (Py.len c) 0 then RNone else RChar c
    end in
  Ret (data, warnings st, result, sess st).

(** The events [_write_pha] writes are those with an origin; their source
    ids are what it hands to the canonicalizer, in catalog order. *)
Definition has_origin (event : Event) : bool :=
  match or_first (preferred_origin event) (origins event) with
  | Ret _ => true
  | _ => false
  end.

Definition source_ids (catalog : list Event) : list string :=
  (λ event, last_component (resource_id event)) <$> filter has_origin catalog.

(** The header and pick lines of an event, once its origin, magnitude value
    and emitted id are known. *)
Definition event_lines (event : Event) (ori : Origin) (q : OriginQuality)
    (d : float) (mag : float) (evid : string) : list string :=
  let rms := match standard_error q with Some r => r | None => 0%float end in
  let shortening := cos (deg2rad (latitude ori)) in
  let he :=
    py_max (match latitude_errors ori with
            | None => 0 | Some e => e * DEG2KM end)
           (match longitude_errors ori with
            | None => 0 | Some e => e * DEG2KM * shortening end)%float in
  let ve :=
    match depth_errors ori with None => 0 | Some v => v / 1000 end%float in
  PHA1 ori (d / 1000)%float mag he ve rms evid
  :: map (λ pick,
            PHA2 pick (utc_sub (pick_time pick) (time ori))
              (Dict.get_default (weights_of (arrivals ori))
                 (pick_resource_id pick) (Some 1%float)))
         (picks event).

End Writer.

(** ** Vocabulary of the proofs *)

(** What the loop leaves behind: either the candidate it was given, or the
    decimal form of the last counter value it drew, every earlier value
    being claimed already. [pending] bounds the claimed values ahead of the
    counter, and so the fuel the loop needs. *)
Definition loop_post (used : gset string) (idpha : string) (c : N)
    (idpha' : string) (c' : N) : Prop :=
  idpha' ≠ "" ∧ (idpha' ∉ used) ∧
  ((idpha' = idpha ∧ c' = c) ∨
   (∃ k, (c ≤ k)%N ∧ c' = (k + 1)%N ∧ idpha' = Py.str k ∧
         ∀ j, (c ≤ j < k)%N → Py.str j ∈ used)).

(** *** The invariant of a canonicalizer session

    [hist] lists the (source id, returned id) pairs of the calls made so
    far, latest first. *)

Definition valid_id (o : string) : Prop :=
  Py.isdigit o = true ∧ Py.len o ≤ 9.

Record session_inv (s : session) (hist : list (string * string)) : Prop := {
  inv_used : ∀ e o, (e, o) ∈ hist → o ∈ used_ids s;
  inv_map : ∀ e v, Dict.get (eventid_map s) e = Some v → (e, v) ∈ hist;
  inv_inj : ∀ e1 e2 o, (e1, o) ∈ hist → (e2, o) ∈ hist → e1 = e2;
  inv_valid : ∀ e o, (e, o) ∈ hist → valid_id o;
  inv_counter : ∀ j, (1000 ≤ j < counter s)%N → Py.str j ∈ used_ids s;
  inv_counter_lo : (1000 ≤ counter s)%N;
  inv_size : size (used_ids s) ≤ length hist
}.

(** *** Source ids without digits

    [letters (S i)] is the letter x written [i + 1] times: pairwise
    different source ids, each of which falls back to the counter. *)

Fixpoint letters (n : nat) : string :=
  match n with O => EmptyString | S m => String "x" (letters m) end.

(** The session after [k] such ids: the counter has advanced [k] times,
    the claimed ids are the values it went through, and the keys of the
    table are the ids seen. *)
Definition after_letters (k : nat) (s : session) : Prop :=
  counter s = (1000 + N.of_nat k)%N
  ∧ (∀ x, x ∈ used_ids s → ∃ j, j < k ∧ x = Py.str (1000 + N.of_nat j))
  ∧ (∀ e v, Dict.get (eventid_map s) e = Some v →
            ∃ j, j < k ∧ e = letters (S j)).

(** *** The candidate and the renumbered ids

    [candidate evid] is the string the fallback loop of [_map_eventid]
    starts from: the digits of [evid], the first nine of them at most. *)
Definition candidate (evid : string) : string :=
  let idpha :=
    if negb (Py.isdigit evid) then Py.join_if Py.char_isdigit evid
    else evid in
  if Nat.ltb 9 (Py.len idpha) then Py.slice_to 9 idpha else idpha.

(** The source ids that came back changed, each with its new id, in the
    order of the calls. *)
Definition renumbered (evids outs : list string) : Dict.t string :=
  filter (λ p, p.1 ≠ p.2) (zip evids outs).

(** *** The writer's state and warnings *)

(** What a write produces besides its warnings. *)
Definition written_part (st : write_state)
    : list string * session * local_map :=
  (lines st, sess st, local st).

Section WriterVocabulary.
Context `{Runtime}.
Context (preferred_origin : Event → option Origin)
        (preferred_magnitude : Event → option Magnitude).

(** The calls to [warn] one event gives rise to. *)
Definition warnings_for (event : Event) : list string :=
  if has_origin preferred_origin event then
    match or_first (preferred_magnitude event) (magnitudes event) with
    | Ret _ => []
    | _ => ["Missing magnitude will be set to 0.0"]
    end
  else ["Skip writing events with missing origin"].

End WriterVocabulary.

(** *** Blocks and their lines *)

(** [eventid_map[id_] if id_ in eventid_map else id_] *)
Definition remap (d : Dict.t string) (id_ : string) : string :=
  match Dict.get d id_ with Some mapped => mapped | None => id_ end.

(** The lines of a block after its first line: [lines[1:]]. *)
Definition pick_lines (block : string) : list string :=
  tail (Py.splitlines (Py.strip Py.str_isspace block)).

(** [s.count(c)] for a character. *)
Fixpoint count_char (c : ascii) (s : string) : nat :=
  match s with
  | EmptyString => 0
  | String c' r => (if Ascii.eqb c' c then 1 else 0) + count_char c r
  end.

(** The blocks of a text: [text.split('#')[1:]]. *)
Definition blocks_of (text : string) : list string :=
  tail (Py.split_on "#" text).

(** The number of pick lines in a list of blocks. *)
Definition pick_count (blocks : list string) : nat :=
  sum_list_with (λ block, length (pick_lines block)) blocks.

(** ** A runtime for the worked examples

    The fields of [Runtime] on the literals of the examples below, with the
    values CPython 3 and obspy give there (floats are written in
    hexadecimal, as [float.hex] prints them).  Outside these literals the
    tables have no entry: parsing raises and the other functions return a
    default.  The examples never leave the tables. *)

Module Example.

Definition float_table : Dict.t float :=
  [ ("0.00", 0); ("0.0", 0); ("0", 0); ("0.000000", 0); ("40.0", 40);
    ("-120.0", -120);
    ("5.0", 5); ("2.5", 2.5); ("1.0", 1); ("0.5", 0.5);
    ("0.1", 0x1.999999999999ap-4); ("1.2345", 0x1.3c083126e978dp+0);
    ("-89.5", -89.5) ]%float.

Definition int_table : Dict.t Z :=
  [ ("2001", 2001); ("1", 1); ("15", 15); ("8", 8); ("5", 5) ]%Z.

Fixpoint lookup_float {A : Type} (t : list (float * A)) (x : float)
    (default : A) : A :=
  match t with
  | [] => default
  | (y, a) :: r => if PrimFloat.eqb y x then a else lookup_float r x default
  end.

Definition deg2rad_table : list (float * float) :=
  [ (40, 0x1.657184ae74487p-1); (-89.5, -0x1.8fe3cc6ff87dep+0) ]%float.

Definition cos_table : list (float * float) :=
  [ (0x1.657184ae74487p-1, 0x1.8836fa2cf5039p-1);
    (-0x1.8fe3cc6ff87dep+0, 0x1.1df37c4954c0bp-7) ]%float.

Definition str_float_table : list (float * string) :=
  [ (0, "0.0"); (40, "40.0"); (-120, "-120.0"); (5, "5.0"); (2.5, "2.5");
    (1, "1.0"); (0.5, "0.5"); (0x1.999999999999ap-4, "0.1");
    (-89.5, "-89.5") ]%float.

Definition format_4f_table : list (float * string) :=
  [ (0, "0.0000"); (0x1.3c083126e978dp+0, "1.2345") ]%float.

(** ['.{}..{}'.format(a, b)], the default template of the reader. *)
Definition format2 (template a b : string) : outcome string :=
  if String.eqb template ".{}..{}" then Ret ("." ++ a ++ ".." ++ b)
  else Raise IndexError.

(** Time stamps are nanoseconds since 1970; the only date of the
    examples is 2001-01-15T08:05:00. *)
Definition t0 : Z := 979545900000000000.

Definition lenient (yr mo dy hr mn : Z) (sc : float) : option Z :=
  if ((yr =? 2001) && (mo =? 1) && (dy =? 15) && (hr =? 8) && (mn =? 5))%Z
     && PrimFloat.eqb sc 0
  then Some t0 else None.

Definition add (t : Z) (x : float) : outcome Z :=
  if PrimFloat.eqb x 0x1.3c083126e978dp+0 then Ret (t + 1234500000)%Z
  else if PrimFloat.eqb x 0 then Ret t
  else Raise ValueError.

Definition sub (t1 t2 : Z) : float :=
  if (t1 - t2 =? 1234500000)%Z then 0x1.3c083126e978dp+0%float
  else 0%float.

Definition field (at_t0 : Z) (t : Z) : Z :=
  if (t =? t0)%Z then at_t0 else 0%Z.

(** A seed string [net.sta.loc.cha] has the station as second part. *)
Definition station_of (seed : string) : option string :=
  match Py.split_on "." seed with
  | [_; sta; _; _] => Some sta
  | _ => None
  end.

#[global] Instance runtime : Runtime := {|
  py_float := Dict.get float_table;
  py_int := Dict.get int_table;
  cos x := lookup_float cos_table x nan;
  deg2rad x := lookup_float deg2rad_table x nan;
  str_float x := lookup_float str_float_table x "nan";
  format_4f x := lookup_float format_4f_table x "nan";
  str_format2 := format2;
  UTCDateTime := Z;
  utc_lenient := lenient;
  utc_add := add;
  utc_sub := sub;
  utc_year := field 2001;
  utc_month := field 1;
  utc_day := field 15;
  utc_hour := field 8;
  utc_minute := field 5;
  utc_second := field 0;
  utc_microsecond := field 0;
  WaveformStreamID := string;
  waveform_of_seed_string seed := seed;
  station_code := station_of;
  generated_id n := "smi:local/" ++ pretty n;
  Inventory := unit;
  _seed_id_map _ id_map := match id_map with Some d => d | None => [] end
|}.

(** The preferred origin and magnitude of an event, looked up among its
    own origins and magnitudes. *)
Definition preferred_origin (ev : Event) : option Origin :=
  rid ← preferred_origin_id ev;
  List.find (λ o, String.eqb (origin_resource_id o) rid) (origins ev).

Definition preferred_magnitude (ev : Event) : option Magnitude :=
  rid ← preferred_magnitude_id ev;
  List.find (λ m, String.eqb (magnitude_resource_id m) rid) (magnitudes ev).

Definition nl : string := String "010" EmptyString.

(** The block of the specification's concrete scenario, and variants. *)
Definition header (la mg eh ez rms id_ : string) : string :=
  "#  2001   1  15   8   5   0.00  " ++ la ++ "  -120.0  5.0  " ++ mg ++
  "  " ++ eh ++ "  " ++ ez ++ "  " ++ rms ++ "  " ++ id_ ++ nl.

Definition pick_line : string := "STA1  1.2345  1.0  P" ++ nl.

Definition block (la mg eh ez rms id_ : string) : string :=
  String.substring 1 1000 (header la mg eh ez rms id_) ++ pick_line.

Definition scenario : string := header "40.0" "2.5" "1.0" "0.5" "0.1" "12345" ++ pick_line.

(** What the writer makes of the scenario. *)
Definition written : string :=
  "#  2001    1   15    8   5   0.000000   40.0   -120.0   5.0   2.5  1.0   0.5   0.1       12345" ++ nl ++
  "STA1  1.2345  1.0  P" ++ nl.

Definition files : Dict.t string :=
  [ ("scenario.pha", scenario); ("written.pha", written); ("empty.pha", "") ].

Definition fs : FileSystem := {|
  read_bytes name := Dict.get files name;
  read_text name enc := Dict.get files name
|}.

Definition ph2comp : Dict.t string := [("P", "Z"); ("S", "N")].

Definition read (la mg eh ez rms id_ : string) : outcome (Event * nat) :=
  _block2event ∅ (block la mg eh ez rms id_) [] ".{}..{}" ph2comp None 0.

End Example.

(** The catalog of the scenario, given directly. *)
Module ExampleCatalog.
Import Example.

Definition pick0 : Pick :=
  {| pick_resource_id := "smi:local/0";
     waveform_id := ".STA1..Z";
     phase_hint := Some "P";
     pick_time := (t0 + 1234500000)%Z |}.

Definition origin0 : Origin :=
  {| arrivals := [ {| phase := "P"; pick_id := "smi:local/0";
                      time_weight := Some 1%float |} ];
     origin_resource_id := "smi:local/origin/12345";
     quality := Some {| associated_phase_count := 1;
                        standard_error := Some 0x1.999999999999ap-4%float |};
     latitude := 40;
     longitude := -120;
     depth := Some 5000%float;
     latitude_errors := Some 0x1.26ad1f4f31ba0p-7%float;
     longitude_errors := Some 0x1.80ac2b59d52afp-7%float;
     depth_errors := Some 500%float;
     time := t0 |}.

(** The event of the scenario, with the given magnitudes. *)
Definition event_with (mags : list Magnitude) : Event :=
  {| resource_id := "smi:local/event/12345";
     picks := [pick0];
     origins := [origin0];
     magnitudes := mags;
     preferred_origin_id := Some "smi:local/origin/12345";
     preferred_magnitude_id := magnitude_resource_id <$> head mags |}.

Definition magnitude (m : float) : Magnitude :=
  {| mag := m; magnitude_resource_id := "smi:local/magnitude/12345" |}.

Definition event0 : Event := event_with [magnitude 2.5].

(** An event without any origin. *)
Definition orphan : Event :=
  {| resource_id := "smi:local/event/7";
     picks := [];
     origins := [];
     magnitudes := [];
     preferred_origin_id := None;
     preferred_magnitude_id := None |}.

Definition write := _write_pha preferred_origin preferred_magnitude.

End ExampleCatalog.

Example feed_abc :
  fst <$> (match feed ["abc"; "123"; "x123"; "1000"] initial_session with
           | Ret p => Some p | _ => None end)
  = Some ["1000"; "123"; "1001"; "1002"].
Proof. vm_compute. reflexivity. Qed.

Example scenario_read :
  match Example.read "40.0" "2.5" "1.0" "0.5" "0.1" "12345" with
  | Ret (ev, _) =>
      match origins ev with
      | [o] => Some (latitude o, depth o, latitude_errors o, longitude_errors o,
                     depth_errors o, mag <$> magnitudes ev, resource_id ev,
                     length (picks ev))
      | _ => None
      end
  | _ => None
  end
  = Some (40, Some 5000, Some 0x1.26ad1f4f31ba0p-7, Some 0x1.80ac2b59d52afp-7,
          Some 500, [2.5], "smi:local/event/12345", 1%nat)%float.
Proof. vm_compute. reflexivity. Qed.

(** ** The reader leaves the caller's dictionary alone *)

Lemma alloc_fresh (h : heap) (d : Dict.t string) (l : nat) :
  is_Some (h !! l) → (alloc h d).1 ≠ l.
Proof.
  intros Hl Heq. simpl in Heq. subst l.
  apply elem_of_dom in Hl. by apply is_fresh in Hl.
Qed.

(** C10. When [_read_pha] is given the address of a caller's [eventid_map],
    the heap it leaves behind is the caller's heap with one new dictionary,
    the inverted table, at a fresh address: the dictionary at the caller's
    address is the one that was there before the call. *)
Theorem read_pha_keeps_eventid_map `{Runtime} (fs : FileSystem) (h : heap)
    (l : nat) (d : Dict.t string) (filename : string)
    (inventory : option Inventory) (id_map : option (Dict.t string))
    (id_default : string) (ph2comp : Dict.t string) (encoding : string)
    (n : nat) :
  h !! l = Some d →
  let h' := (_read_pha fs h filename inventory id_map id_default ph2comp
               (Some l) encoding n).1 in
  h' !! l = Some d
  ∧ h' = <[ fresh (dom h) := Dict.inverted d ]> h
  ∧ h !! fresh (dom h) = None.
Proof.
  intros Hl. unfold _read_pha. rewrite Hl. simpl.
  assert (Hne : fresh (dom h) ≠ l)
    by (apply (alloc_fresh h (Dict.inverted d)); eauto).
  split; [by rewrite lookup_insert_ne|].
  split; [done|]. apply not_elem_of_dom, is_fresh.
Qed.

Lemma read_pha_keeps_eventid_map_witness :
  let d : Dict.t string := [("evt-a", "1"); ("evt-b", "2")] in
  let h : heap := {[ 7 := d ]} in
  let h' := (_read_pha (H := Example.runtime) Example.fs h "scenario.pha"
               None None ".{}..{}" Example.ph2comp (Some 7) "utf-8" 0).1 in
  h' !! 7 = Some d
  ∧ h' = <[ fresh (dom h) := Dict.inverted d ]> h
  ∧ h !! fresh (dom h) = None.
Proof.
  intros d h.
  apply (read_pha_keeps_eventid_map (H := Example.runtime) Example.fs h 7 d).
  reflexivity.
Defined.

(** ** Facts about the text methods *)

Lemma isdigit_spec (s : string) :
  Py.isdigit s = true ↔ s ≠ "" ∧ Py.all_chars Py.char_isdigit s = true.
Proof.
  destruct s as [|c r]; simpl.
  - split; [done|]. by intros [? _].
  - split; [by intros ->|]. by intros [_ ?].
Qed.

Lemma all_chars_join_if (p : ascii → bool) (s : string) :
  Py.all_chars p (Py.join_if p s) = true.
Proof.
  induction s as [|c r IH]; simpl; [done|].
  destruct (p c) eqn:Hc; simpl; [by rewrite Hc|done].
Qed.

Lemma all_chars_slice_to (p : ascii → bool) (n : nat) (s : string) :
  Py.all_chars p s = true → Py.all_chars p (Py.slice_to n s) = true.
Proof.
  revert s. induction n as [|n IH]; intros [|c r]; simpl; try done.
  rewrite !andb_true_iff. intros [? ?]. auto.
Qed.

Lemma length_slice_to (n : nat) (s : string) :
  (String.length (Py.slice_to n s) ≤ n)%nat.
Proof.
  revert s. induction n as [|n IH]; intros [|c r]; simpl; try lia.
  specialize (IH r). lia.
Qed.

Lemma char_isdigit_pretty (d : N) : Py.char_isdigit (pretty_N_char d) = true.
Proof. unfold pretty_N_char. by repeat case_match. Qed.

Lemma pretty_N_go_digits (x : N) (s : string) :
  Py.all_chars Py.char_isdigit s = true →
  Py.all_chars Py.char_isdigit (pretty_N_go x s) = true.
Proof.
  revert s. induction (N.lt_wf_0 x) as [x _ IH]; intros s Hs.
  destruct (decide (x = 0%N)) as [->|Hx]; [by rewrite pretty_N_go_0|].
  rewrite pretty_N_go_step by lia.
  apply IH; [apply N.div_lt; lia|].
  simpl. by rewrite char_isdigit_pretty.
Qed.

Lemma pretty_N_go_length_ge (x : N) (s : string) :
  (String.length s ≤ String.length (pretty_N_go x s))%nat.
Proof.
  revert s. induction (N.lt_wf_0 x) as [x _ IH]; intros s.
  destruct (decide (x = 0%N)) as [->|Hx]; [by rewrite pretty_N_go_0|].
  rewrite pretty_N_go_step by lia.
  etrans; [|apply IH, N.div_lt; lia]. simpl. lia.
Qed.

Lemma pretty_N_go_length_le (k : nat) (x : N) (s : string) :
  (x < 10 ^ N.of_nat k)%N →
  (String.length (pretty_N_go x s) ≤ String.length s + k)%nat.
Proof.
  revert x s. induction k as [|k IH]; intros x s Hx.
  - assert (x = 0%N) as -> by (simpl in Hx; lia).
    rewrite pretty_N_go_0. lia.
  - destruct (decide (x = 0%N)) as [->|Hx0]; [rewrite pretty_N_go_0; lia|].
    rewrite pretty_N_go_step by lia.
    etrans; [apply IH|simpl; lia].
    apply N.Div0.div_lt_upper_bound.
    replace (N.of_nat (S k)) with (N.succ (N.of_nat k)) in Hx by lia.
    by rewrite N.pow_succ_r' in Hx.
Qed.

(** [str(c)] is a non-empty string of digits, of at most nine digits below
    [10^9], and different numbers print differently. *)
Lemma str_isdigit (c : N) : Py.isdigit (Py.str c) = true.
Proof.
  apply isdigit_spec. unfold Py.str, pretty, pretty_N.
  case_decide as Hc; [done|]. split.
  - intros Hempty. rewrite pretty_N_go_step in Hempty by lia.
    pose proof (pretty_N_go_length_ge (c `div` 10)
                  (String (pretty_N_char (c `mod` 10)) "")) as Hlen.
    rewrite Hempty in Hlen. simpl in Hlen. lia.
  - by apply pretty_N_go_digits.
Qed.

Lemma str_len (c : N) : (c < 10 ^ 9)%N → (Py.len (Py.str c) ≤ 9)%nat.
Proof.
  intros Hc. unfold Py.len, Py.str, pretty, pretty_N.
  case_decide; [simpl; lia|].
  apply (pretty_N_go_length_le 9 c ""). exact Hc.
Qed.

Lemma str_inj (c1 c2 : N) : Py.str c1 = Py.str c2 → c1 = c2.
Proof. apply pretty_N_inj. Qed.

Lemma str_nonempty (c : N) : Py.str c ≠ "".
Proof. pose proof (str_isdigit c) as H. apply isdigit_spec in H. tauto. Qed.

(** ** Facts about dictionaries *)

Lemma dict_get_set_eq {V : Type} (d : Dict.t V) (k : string) (v : V) :
  Dict.get (Dict.set d k v) k = Some v.
Proof.
  induction d as [|[k' v'] r IH]; simpl.
  - by rewrite String.eqb_refl.
  - destruct (String.eqb k' k) eqn:E; simpl; by rewrite E.
Qed.

Lemma dict_get_set_ne {V : Type} (d : Dict.t V) (k k' : string) (v : V) :
  k ≠ k' → Dict.get (Dict.set d k v) k' = Dict.get d k'.
Proof.
  intros Hne. induction d as [|[k0 v0] r IH]; simpl.
  - destruct (String.eqb k k') eqn:E; [|done].
    apply String.eqb_eq in E. done.
  - destruct (String.eqb k0 k) eqn:E; simpl.
    + apply String.eqb_eq in E. subst k0.
      destruct (String.eqb k k') eqn:E'; [|done].
      apply String.eqb_eq in E'. done.
    + by rewrite IH.
Qed.

Lemma dict_set_nonempty {V : Type} (d : Dict.t V) (k : string) (v : V) :
  Dict.set d k v ≠ [].
Proof. destruct d as [|[k' v'] r]; simpl; [done|]. by destruct (String.eqb k' k). Qed.

(** ** The fallback loop of the canonicalizer *)

Lemma while_claimed_free (fuel : nat) (used : gset string) (idpha : string)
    (c : N) :
  idpha ≠ "" → idpha ∉ used →
  while_claimed fuel used idpha c = Some (idpha, c).
Proof.
  intros Hne Hfree.
  assert (String.eqb idpha "" || bool_decide (idpha ∈ used) = false) as Hc.
  { apply orb_false_iff. split.
    - by apply String.eqb_neq.
    - by apply bool_decide_eq_false. }
  destruct fuel; simpl; by rewrite Hc.
Qed.

Lemma while_claimed_spec (fuel : nat) (used pending : gset string)
    (idpha : string) (c : N) :
  (∀ j, (c ≤ j)%N → Py.str j ∈ used → Py.str j ∈ pending) →
  size pending < fuel →
  ∃ idpha' c', while_claimed fuel used idpha c = Some (idpha', c')
               ∧ loop_post used idpha c idpha' c'.
Proof.
  revert pending idpha c.
  induction fuel as [|fuel IH]; intros pending idpha c Hpend Hsize; [lia|].
  simpl.
  destruct (String.eqb idpha "" || bool_decide (idpha ∈ used)) eqn:Hcond.
  - destruct (decide (Py.str c ∈ used)) as [Hin|Hout].
    + destruct (IH (pending ∖ {[ Py.str c ]}) (Py.str c) (c + 1)%N)
        as (idpha' & c' & Hrun & Hne & Hfree & Hcase).
      * intros j Hj Hju. apply elem_of_difference. split.
        -- apply Hpend; [lia|done].
        -- rewrite elem_of_singleton. intros Heq. apply str_inj in Heq. lia.
      * assert (Py.str c ∈ pending) as H by (apply Hpend; [lia|done]).
        assert ({[ Py.str c ]} ⊆ pending) as Hsub
          by (by apply singleton_subseteq_l).
        apply size_difference in Hsub. rewrite size_singleton in Hsub.
        assert (size pending ≠ 0); [|lia].
        apply size_non_empty_iff. intros Hempty.
        rewrite Hempty in H. by apply not_elem_of_empty in H.
      * exists idpha', c'. split; [done|]. split; [done|]. split; [done|].
        right. destruct Hcase as [[-> ->]|(k & Hk & -> & -> & Hall)];
          [done|].
        exists k. repeat split; [lia|].
        intros j Hj. destruct (decide (j = c)) as [->|?]; [done|].
        apply Hall. lia.
    + exists (Py.str c), (c + 1)%N. split.
      * apply while_claimed_free; [apply str_nonempty|done].
      * split; [apply str_nonempty|]. split; [done|].
        right. exists c. repeat split; [lia|]. intros j Hj. lia.
  - apply orb_false_iff in Hcond as [Hne Hfree].
    exists idpha, c. split; [done|].
    split; [by apply String.eqb_neq|].
    split; [by apply bool_decide_eq_false in Hfree|]. by left.
Qed.

(** The loop always finds an identifier with the fuel [_map_eventid] gives
    it. *)
Lemma while_claimed_total (used : gset string) (idpha : string) (c : N) :
  ∃ idpha' c', while_claimed (S (size used)) used idpha c = Some (idpha', c')
               ∧ loop_post used idpha c idpha' c'.
Proof. apply (while_claimed_spec _ used used); [auto|lia]. Qed.

(** A call of the canonicalizer returns or raises: its loop never runs out
    of fuel. *)
Lemma map_eventid_terminates (evid : string) (s : session) :
  _map_eventid evid s ≠ Timeout.
Proof.
  unfold _map_eventid. destruct (Dict.get _ _) as [v|].
  - by destruct (negb (Py.isdigit v) || Nat.ltb 9 (Py.len v)).
  - cbv zeta.
    set (cand := if Nat.ltb 9 _ then _ else _).
    by destruct (while_claimed_total (used_ids s) cand (counter s))
      as (idpha' & c' & -> & _).
Qed.

(** Consecutive counter values claimed in [used] are as many elements of
    it. *)
Lemma claimed_range_size (used : gset string) (lo : N) (n : nat) :
  (∀ j, (lo ≤ j < lo + N.of_nat n)%N → Py.str j ∈ used) → n ≤ size used.
Proof.
  intros Hall.
  set (l := (λ i : nat, Py.str (lo + N.of_nat i)) <$> seq 0 n).
  assert (NoDup l) as Hnd.
  { apply NoDup_fmap_2; [|apply NoDup_seq].
    intros i j Hij%str_inj. lia. }
  assert (list_to_set l ⊆ used) as Hsub.
  { intros x Hx%elem_of_list_to_set.
    apply list_elem_of_fmap in Hx as (i & -> & Hi%elem_of_seq).
    apply Hall. lia. }
  apply subseteq_size in Hsub.
  rewrite size_list_to_set in Hsub by done.
  unfold l in Hsub. by rewrite length_fmap, length_seq in Hsub.
Qed.

Lemma initial_session_inv : session_inv initial_session [].
Proof.
  split; simpl; try done.
  - intros e o H. by apply not_elem_of_nil in H.
  - intros e1 e2 o H. by apply not_elem_of_nil in H.
  - intros e o H. by apply not_elem_of_nil in H.
  - intros j Hj. lia.
Qed.

(** The counter never runs ahead of the number of calls. *)
Lemma session_inv_counter (s : session) (hist : list (string * string)) :
  session_inv s hist → (counter s ≤ 1000 + N.of_nat (length hist))%N.
Proof.
  intros Hinv.
  pose proof (inv_counter_lo _ _ Hinv) as Hlo.
  pose proof (inv_size _ _ Hinv) as Hsize.
  pose proof (claimed_range_size (used_ids s) 1000
                (N.to_nat (counter s - 1000))) as Hrange.
  rewrite N2Nat.id in Hrange.
  assert (N.to_nat (counter s - 1000) ≤ size (used_ids s)) as Hle.
  { apply Hrange. intros j Hj. apply (inv_counter _ _ Hinv). lia. }
  lia.
Qed.

(** The candidate the loop starts from is made of digits, at most nine. *)
Lemma candidate_digits (evid : string) :
  let idpha :=
    if negb (Py.isdigit evid) then Py.join_if Py.char_isdigit evid
    else evid in
  let idpha := if Nat.ltb 9 (Py.len idpha) then Py.slice_to 9 idpha
               else idpha in
  Py.all_chars Py.char_isdigit idpha = true ∧ Py.len idpha ≤ 9.
Proof.
  cbv zeta.
  set (i1 := if negb (Py.isdigit evid) then _ else _).
  assert (Py.all_chars Py.char_isdigit i1 = true) as H1.
  { unfold i1. destruct (Py.isdigit evid) eqn:E; simpl.
    - by apply isdigit_spec in E as [_ ?].
    - apply all_chars_join_if. }
  destruct (Nat.ltb 9 (Py.len i1)) eqn:E.
  - split; [by apply all_chars_slice_to|apply length_slice_to].
  - split; [done|]. apply Nat.ltb_ge in E. done.
Qed.

(** One call: from a session that satisfies the invariant, the call returns,
    and the invariant holds of the session it leaves with the call added
    to the history. *)
Lemma map_eventid_step (evid : string) (s : session)
    (hist : list (string * string)) :
  session_inv s hist →
  (1000 + N.of_nat (S (length hist)) ≤ 10 ^ 9)%N →
  ∃ r s', _map_eventid evid s = Ret (r, s')
          ∧ session_inv s' ((evid, idpha_of r) :: hist).
Proof.
  intros Hinv Hbound. unfold _map_eventid.
  destruct (Dict.get (eventid_map s) evid) as [v|] eqn:Hget.
  - (* a mapping recorded by an earlier call *)
    pose proof (inv_map _ _ Hinv _ _ Hget) as Hin.
    destruct (inv_valid _ _ Hinv _ _ Hin) as [Hdig Hlen].
    rewrite Hdig. simpl.
    assert (Nat.ltb 9 (Py.len v) = false) as -> by (apply Nat.ltb_ge; lia).
    exists (RStr v), s. split; [done|]. simpl.
    destruct Hinv as [Hu Hm Hi Hv Hc Hlo Hs].
    split; try done.
    + intros e o [[= -> ->]|H]%elem_of_cons; eauto.
    + intros e w H. right. eauto.
    + intros e1 e2 o H1 H2.
      apply elem_of_cons in H1 as [H1|H1], H2 as [H2|H2]; simplify_eq; eauto.
    + intros e o [[= -> ->]|H]%elem_of_cons; [by split|eauto].
    + simpl. lia.
  - (* a new source id *)
    destruct (candidate_digits evid) as [Hcd Hcl]. cbv zeta in Hcd, Hcl.
    cbv zeta.
    set (cand := if Nat.ltb 9 _ then _ else _) in *.
    destruct (while_claimed_total (used_ids s) cand (counter s))
      as (idpha' & c' & -> & Hne & Hfree & Hcase).
    eexists _, _. split; [done|]. simpl.
    pose proof (session_inv_counter _ _ Hinv) as Hcount.
    destruct Hinv as [Hu Hm Hi Hv Hc Hlo Hs].
    assert (size ({[idpha']} ∪ used_ids s) = S (size (used_ids s))) as Hsz.
    { rewrite size_union by (by apply disjoint_singleton_l).
      by rewrite size_singleton. }
    assert (∀ j, (1000 ≤ j < c')%N → Py.str j ∈ {[idpha']} ∪ used_ids s)
      as Hc'.
    { intros j Hj. apply elem_of_union.
      destruct Hcase as [[-> ->]|(k & Hk & -> & -> & Hall)]; [eauto|].
      destruct (decide (j = k)) as [->|?];
        [left; by apply elem_of_singleton|].
      right. destruct (decide (j < counter s)%N); [apply Hc|apply Hall]; lia. }
    assert (valid_id idpha') as Hvalid.
    { destruct Hcase as [[-> ->]|(k & Hk & -> & -> & Hall)].
      - split; [|done]. apply isdigit_spec. by split.
      - split; [apply str_isdigit|]. apply str_len.
        pose proof (claimed_range_size ({[Py.str k]} ∪ used_ids s) 1000
                      (N.to_nat (k + 1 - 1000))) as Hrange.
        rewrite N2Nat.id in Hrange.
        assert (N.to_nat (k + 1 - 1000) ≤ size ({[Py.str k]} ∪ used_ids s))
          as Hle by (apply Hrange; intros j Hj; apply Hc'; lia).
        rewrite Hsz in Hle. lia. }
    split; simpl.
    + intros e o [[= -> ->]|H]%elem_of_cons; apply elem_of_union.
      * left. by apply elem_of_singleton.
      * right. eauto.
    + intros e w. destruct (String.eqb idpha' evid) eqn:E; simpl.
      * intros H. right. eauto.
      * destruct (decide (evid = e)) as [->|Hne'].
        -- rewrite dict_get_set_eq. intros [= ->]. by left.
        -- rewrite dict_get_set_ne by done. intros H. right. eauto.
    + intros e1 e2 o H1 H2.
      apply elem_of_cons in H1 as [H1|H1], H2 as [H2|H2]; simplify_eq; eauto.
      * by apply Hu in H2.
      * by apply Hu in H1.
    + intros e o [[= -> ->]|H]%elem_of_cons; eauto.
    + done.
    + destruct Hcase as [[-> ->]|(k & Hk & -> & -> & Hall)]; lia.
    + rewrite Hsz. lia.
Qed.

Lemma feed_inv (evids : list string) :
  ∀ (s : session) (hist : list (string * string)),
    session_inv s hist →
    (1000 + N.of_nat (length hist + length evids) ≤ 10 ^ 9)%N →
    ∃ outs s', feed evids s = Ret (outs, s')
               ∧ length outs = length evids
               ∧ session_inv s' (reverse (zip evids outs) ++ hist).
Proof.
  induction evids as [|evid rest IH]; intros s hist Hinv Hbound.
  - exists [], s. split; [done|]. split; [done|]. done.
  - simpl in Hbound.
    destruct (map_eventid_step evid s hist Hinv) as (r & s1 & Hrun & Hinv1);
      [lia|].
    destruct (IH s1 _ Hinv1) as (outs & s2 & Hfeed & Hlen & Hinv2);
      [simpl; lia|].
    exists (idpha_of r :: outs), s2. simpl. rewrite Hrun. simpl.
    rewrite Hfeed. simpl. split; [done|]. split; [by rewrite Hlen|].
    by rewrite reverse_cons, <-app_assoc.
Qed.

(** ** The canonicalizer on a sequence of source ids *)

Lemma zip_lookup_elem {A B : Type} (l1 : list A) (l2 : list B) (i : nat)
    (a : A) (b : B) :
  l1 !! i = Some a → l2 !! i = Some b → (a, b) ∈ zip l1 l2.
Proof.
  intros H1 H2. apply list_elem_of_lookup. exists i.
  apply lookup_zip_with_Some. eauto.
Qed.

(** A source id given twice receives the id of its first fallback again:
    the returned ids repeat. *)
Lemma feed_duplicate_repeats :
  ∃ s, feed ["abc"; "abc"] initial_session = Ret (["1000"; "1000"], s)
       ∧ ¬ NoDup ["1000"; "1000"].
Proof.
  eexists. split; [vm_compute; reflexivity|].
  intros Hnd. apply NoDup_cons in Hnd as [Hnotin _].
  apply Hnotin. by left.
Qed.

(** C2, amended. Fed in order from the initial session, a sequence of
    source ids short enough for the fallback counter to stay below [10^9]
    makes every call return; every returned id is a non-empty string of at
    most nine digits; different source ids receive different ids, so a
    sequence without duplicates receives pairwise different ids; and the
    ids returned are determined by the sequence. *)
Theorem feed_canonical (evids : list string) :
  (1000 + N.of_nat (length evids) ≤ 10 ^ 9)%N →
  ∃ outs s,
    feed evids initial_session = Ret (outs, s)
    ∧ length outs = length evids
    ∧ (∀ o, o ∈ outs → Py.isdigit o = true ∧ Py.len o ≤ 9)
    ∧ (∀ i j ei ej oi oj,
         evids !! i = Some ei → evids !! j = Some ej →
         outs !! i = Some oi → outs !! j = Some oj →
         ei ≠ ej → oi ≠ oj)
    ∧ (NoDup evids → NoDup outs)
    ∧ (∀ outs' s', feed evids initial_session = Ret (outs', s') →
                   outs' = outs ∧ s' = s).
Proof.
  intros Hbound.
  destruct (feed_inv evids initial_session [] initial_session_inv)
    as (outs & s & Hfeed & Hlen & Hinv); [simpl; lia|].
  rewrite app_nil_r in Hinv.
  assert (∀ i e o, evids !! i = Some e → outs !! i = Some o →
                   (e, o) ∈ reverse (zip evids outs)) as Hhist.
  { intros i e o He Ho. apply elem_of_reverse. by eapply zip_lookup_elem. }
  assert (∀ i j ei ej o,
            evids !! i = Some ei → evids !! j = Some ej →
            outs !! i = Some o → outs !! j = Some o → ei = ej) as Hinj.
  { intros i j ei ej o Hi Hj Hoi Hoj.
    eapply (inv_inj _ _ Hinv); eauto. }
  exists outs, s. split; [done|]. split; [done|]. split; [|split; [|split]].
  - intros o [i Ho]%list_elem_of_lookup.
    destruct (lookup_lt_is_Some_2 evids i) as [e He].
    { rewrite <-Hlen. by eapply lookup_lt_Some. }
    eapply (inv_valid _ _ Hinv). eauto.
  - intros i j ei ej oi oj Hi Hj Hoi Hoj Hne ->. eauto.
  - intros Hnd. apply NoDup_alt. intros i j o Hoi Hoj.
    destruct (lookup_lt_is_Some_2 evids i) as [ei Hei].
    { rewrite <-Hlen. by eapply lookup_lt_Some. }
    destruct (lookup_lt_is_Some_2 evids j) as [ej Hej].
    { rewrite <-Hlen. by eapply lookup_lt_Some. }
    assert (ei = ej) as -> by eauto.
    eapply NoDup_alt; eauto.
  - intros outs' s' Hfeed'. rewrite Hfeed in Hfeed'. by simplify_eq.
Qed.

Lemma feed_canonical_witness :
  ∃ outs s,
    feed ["abc"; "123"; "x123"; "1000"] initial_session = Ret (outs, s)
    ∧ length outs = 4
    ∧ (∀ o, o ∈ outs → Py.isdigit o = true ∧ Py.len o ≤ 9)
    ∧ (∀ i j ei ej oi oj,
         ["abc"; "123"; "x123"; "1000"] !! i = Some ei →
         ["abc"; "123"; "x123"; "1000"] !! j = Some ej →
         outs !! i = Some oi → outs !! j = Some oj →
         ei ≠ ej → oi ≠ oj)
    ∧ (NoDup ["abc"; "123"; "x123"; "1000"] → NoDup outs)
    ∧ (∀ outs' s',
         feed ["abc"; "123"; "x123"; "1000"] initial_session
         = Ret (outs', s') → outs' = outs ∧ s' = s).
Proof.
  apply (feed_canonical ["abc"; "123"; "x123"; "1000"]).
  vm_compute. discriminate.
Defined.

(** *** The fallback counter is not bounded

    Past 10^9 - 1000 fallbacks the counter prints with ten digits. *)

Lemma letters_length (n : nat) : String.length (letters n) = n.
Proof. induction n as [|n IH]; simpl; [done|]. by rewrite IH. Qed.

Lemma letters_inj (n m : nat) : letters n = letters m → n = m.
Proof. intros Heq. by rewrite <-(letters_length n), Heq, letters_length. Qed.

Lemma letters_no_digit (n : nat) :
  Py.join_if Py.char_isdigit (letters n) = "".
Proof. induction n as [|n IH]; simpl; done. Qed.

Lemma letters_not_isdigit (n : nat) : Py.isdigit (letters n) = false.
Proof. destruct n as [|n]; reflexivity. Qed.

Lemma after_letters_step (k : nat) (s : session) :
  after_letters k s →
  ∃ s', _map_eventid (letters (S k)) s
        = Ret (RPair (Py.str (1000 + N.of_nat k)), s')
        ∧ after_letters (S k) s'.
Proof.
  intros (Hc & Hused & Hkeys).
  assert (Dict.get (eventid_map s) (letters (S k)) = None) as Hget.
  { destruct (Dict.get _ _) as [v|] eqn:E; [|done].
    apply Hkeys in E as (j & Hj & Heq%letters_inj). lia. }
  assert (Py.str (1000 + N.of_nat k) ∉ used_ids s) as Hfree.
  { intros (j & Hj & Heq%str_inj)%Hused. lia. }
  unfold _map_eventid. rewrite Hget. cbv zeta.
  rewrite letters_not_isdigit. cbn [negb].
  rewrite letters_no_digit. cbn [Py.len String.length Nat.ltb Nat.leb].
  cbn [while_claimed String.eqb orb]. rewrite Hc.
  rewrite while_claimed_free by (apply str_nonempty || done).
  assert (String.eqb (Py.str (1000 + N.of_nat k)) (letters (S k)) = false)
    as ->.
  { apply String.eqb_neq. intros Heq.
    pose proof (str_isdigit (1000 + N.of_nat k)) as Hd.
    rewrite Heq, letters_not_isdigit in Hd. done. }
  cbn [negb]. eexists. split; [done|].
  split; [simpl; lia|]. split; simpl.
  - intros x [->%elem_of_singleton|Hx]%elem_of_union.
    + exists k. split; [lia|done].
    + apply Hused in Hx as (j & Hj & ->). exists j. split; [lia|done].
  - intros e v. destruct (decide (letters (S k) = e)) as [<-|Hne].
    + intros _. exists k. split; [lia|done].
    + rewrite dict_get_set_ne by done.
      intros (j & Hj & ->)%Hkeys. exists j. split; [lia|done].
Qed.

Lemma after_letters_feed (n : nat) :
  ∀ (k : nat) (s : session),
    after_letters k s →
    ∃ s', feed ((λ i, letters (S i)) <$> seq k n) s
          = Ret ((λ i, Py.str (1000 + N.of_nat i)) <$> seq k n, s')
          ∧ after_letters (k + n) s'.
Proof.
  induction n as [|n IH]; intros k s Hs.
  - exists s. split; [done|]. by rewrite Nat.add_0_r.
  - destruct (after_letters_step k s Hs) as (s1 & Hrun & Hs1).
    destruct (IH (S k) s1 Hs1) as (s2 & Hfeed & Hs2).
    exists s2. split.
    + cbn [seq fmap list_fmap feed]. rewrite Hrun. cbn [mbind outcome_bind].
      change (list_fmap _ _ ?f ?l) with (f <$> l). rewrite Hfeed. done.
    + by replace (k + S n) with (S k + n) by lia.
Qed.

(** A sequence of [n + 1] such source ids, fed from the initial session,
    ends on the decimal form of [1000 + n]: ten digits when [n] is
    10^9 - 1000. *)
Lemma feed_letters_last (n : nat) :
  ∃ outs s,
    feed ((λ i, letters (S i)) <$> seq 0 (S n)) initial_session
    = Ret (outs, s)
    ∧ last outs = Some (Py.str (1000 + N.of_nat n)).
Proof.
  destruct (after_letters_feed (S n) 0 initial_session) as (s & Hfeed & _).
  { split; [done|]. split.
    - intros x Hx. by apply not_elem_of_empty in Hx.
    - intros e v Hget. done. }
  eexists _, s. split; [exact Hfeed|].
  rewrite seq_S, fmap_app. cbn [fmap list_fmap]. by rewrite last_snoc.
Qed.

Lemma feed_ten_digits (n : nat) :
  N.of_nat n = 999999000%N →
  ∃ outs s,
    feed ((λ i, letters (S i)) <$> seq 0 (S n)) initial_session
    = Ret (outs, s)
    ∧ last outs = Some "1000000000".
Proof.
  intros Hn. destruct (feed_letters_last n) as (outs & s & Hfeed & Hlast).
  exists outs, s. split; [done|]. rewrite Hlast, Hn. f_equal.
Qed.

(** ** The writer *)

Lemma map_eventid_forced (evid mapped : string) (s : session) :
  Dict.get (eventid_map s) evid = Some mapped →
  _map_eventid evid s =
    if negb (Py.isdigit mapped) || Nat.ltb 9 (Py.len mapped)
    then Raise ValueError else Ret (RStr mapped, s).
Proof. intros Hget. unfold _map_eventid. by rewrite Hget. Qed.

(** A call on a source id the table does not hold returns a pair, records
    at most that id, and leaves an empty table empty exactly when it
    returns the source id unchanged. *)
Lemma map_eventid_fresh (evid : string) (s s' : session)
    (r : returned_value) :
  Dict.get (eventid_map s) evid = None →
  _map_eventid evid s = Ret (r, s') →
  r = RPair (idpha_of r)
  ∧ (∀ k, k ≠ evid →
          Dict.get (eventid_map s') k = Dict.get (eventid_map s) k)
  ∧ (eventid_map s' = [] ↔ eventid_map s = [] ∧ idpha_of r = evid).
Proof.
  intros Hget. unfold _map_eventid. rewrite Hget. cbv zeta.
  destruct (while_claimed _ _ _ _) as [[idpha c]|]; [|done].
  intros [= <- <-]. simpl. split; [done|].
  destruct (String.eqb idpha evid) eqn:E; simpl.
  - apply String.eqb_eq in E. split; [done|]. split; [by intros ->|].
    by intros [? _].
  - apply String.eqb_neq in E. split.
    + intros k Hk. by apply dict_get_set_ne.
    + split; [intros H; by apply dict_set_nonempty in H|].
      intros [_ ?]. done.
Qed.

Lemma feed_fresh (evids : list string) :
  ∀ (s s' : session) (outs : list string),
    NoDup evids →
    (∀ e, e ∈ evids → Dict.get (eventid_map s) e = None) →
    feed evids s = Ret (outs, s') →
    eventid_map s' = [] ↔ eventid_map s = [] ∧ outs = evids.
Proof.
  induction evids as [|evid rest IH]; intros s s' outs Hnd Hfree Hfeed.
  - simpl in Hfeed. injection Hfeed as <- <-. by split; [|intros []].
  - simpl in Hfeed. apply NoDup_cons in Hnd as [Hnotin Hnd].
    destruct (_map_eventid evid s) as [[r s1]| |] eqn:Hrun; try done.
    simpl in Hfeed.
    destruct (feed rest s1) as [[outs1 s2]| |] eqn:Hrest; try done.
    simpl in Hfeed. injection Hfeed as <- <-.
    destruct (map_eventid_fresh evid s s1 r) as (_ & Hkeep & Hempty);
      [apply Hfree; by left|done|].
    assert (eventid_map s2 = [] ↔ eventid_map s1 = [] ∧ outs1 = rest)
      as Hrec.
    { apply IH; [done| |done].
      intros e He. rewrite Hkeep; [apply Hfree; by right|].
      intros ->. done. }
    rewrite Hrec, Hempty. split.
    + intros [[? ->] ->]. done.
    + intros [? [= ? ?]]. done.
Qed.

Section WriterFacts.
Context `{Runtime}.
Context (po : Event → option Origin) (pm : Event → option Magnitude).

Lemma or_first_cases {A : Type} (a : option A) (l : list A) :
  (∃ x, or_first a l = Ret x) ∨ (or_first a l = Raise IndexError ∧ a = None ∧ l = []).
Proof.
  destruct a as [x|]; simpl; [by left; exists x|].
  destruct l as [|x l]; simpl; [by right|by left; exists x].
Qed.

(** An event without origin leaves the state as it is, but for the
    warning. *)
Lemma write_event_no_origin (event : Event) (st : write_state) :
  has_origin po event = false →
  write_event po pm event st
  = Ret (add_warning "Skip writing events with missing origin" st).
Proof.
  unfold has_origin, write_event.
  destruct (or_first_cases (po event) (origins event))
    as [[ori ->]|[-> _]]; done.
Qed.

(** An event with an origin, when it is written, has had its source id
    canonicalized and the result unpacked. *)
Lemma write_event_origin (event : Event) (st st' : write_state) :
  has_origin po event = true →
  write_event po pm event st = Ret st' →
  ∃ r evid,
    _map_eventid (last_component (resource_id event)) (sess st)
    = Ret (r, sess st')
    ∧ unpack2 r = Ret (evid, local st').
Proof.
  unfold has_origin, write_event.
  destruct (or_first (po event) (origins event))
    as [ori| |]; try done.
  intros _.
  destruct (match or_first (pm event) (magnitudes event)
            with Ret m => _ | _ => _ end) as [mag warned].
  destruct (_map_eventid _ _) as [[r s]| |]; try done. simpl.
  destruct (unpack2 r) as [[evid lm]| |] eqn:Hunpack; try done. simpl.
  destruct (quality ori) as [q|]; try done. simpl.
  destruct (depth ori) as [d|]; try done. simpl.
  intros [= <-]. simpl. eauto.
Qed.

Lemma source_ids_cons (event : Event) (rest : list Event) :
  source_ids po (event :: rest)
  = if has_origin po event
    then last_component (resource_id event) :: source_ids po rest
    else source_ids po rest.
Proof.
  unfold source_ids. rewrite filter_cons.
  destruct (has_origin po event); by case_decide.
Qed.

(** On a catalog whose written events have pairwise different source ids,
    none of them a key of the table, the session of the writer goes through
    the states of [feed] on these ids, and the local variable stays bound
    to the table. *)
Lemma write_events_feed (catalog : list Event) :
  ∀ st st' : write_state,
    NoDup (source_ids po catalog) →
    (∀ e, e ∈ source_ids po catalog →
          Dict.get (eventid_map (sess st)) e = None) →
    write_events po pm catalog st = Ret st' →
    ∃ outs, feed (source_ids po catalog) (sess st) = Ret (outs, sess st')
            ∧ (local st = LTable → local st' = LTable).
Proof.
  induction catalog as [|event rest IH]; intros st st' Hnd Hfree Hrun.
  - simpl in Hrun. injection Hrun as <-. by exists [].
  - simpl in Hrun. rewrite source_ids_cons in Hnd, Hfree |- *.
    destruct (write_event po pm event st) as [st1| |] eqn:Hev; try done.
    simpl in Hrun.
    destruct (has_origin po event) eqn:Hori.
    + apply NoDup_cons in Hnd as [Hnotin Hnd].
      destruct (write_event_origin event st st1 Hori Hev)
        as (r & evid & Hmap & Hunpack).
      destruct (map_eventid_fresh _ _ _ _ (Hfree _ ltac:(by left)) Hmap)
        as (Hr & Hkeep & _).
      destruct (IH st1 st' Hnd) as (outs & Hfeed & Hlocal); [|done|].
      { intros e He. rewrite Hkeep; [apply Hfree; by right|].
        intros ->. done. }
      exists (idpha_of r :: outs). simpl. rewrite Hmap. simpl.
      rewrite Hfeed. simpl. split; [done|]. intros _. apply Hlocal.
      rewrite Hr in Hunpack. simpl in Hunpack. by injection Hunpack.
    + rewrite (write_event_no_origin event st Hori) in Hev.
      injection Hev as <-.
      exact (IH (add_warning _ st) st' Hnd Hfree Hrun).
Qed.

(** C9, amended. On a catalog whose written events have pairwise different
    source ids, none of them a key of the table the caller supplied,
    [_write_pha] returns the table when it is not empty at the end of the
    write, and [None] when it is; and the table is empty at the end exactly
    when the caller supplied none (or an empty one) and every id came back
    from the canonicalizer unchanged. *)
Theorem write_pha_result (catalog : list Event)
    (supplied : option (Dict.t string)) (data : string)
    (issued : list string) (r : write_result) (s : session) :
  let table := match supplied with None => [] | Some d => d end in
  NoDup (source_ids po catalog) →
  (∀ e, e ∈ source_ids po catalog → Dict.get table e = None) →
  _write_pha po pm catalog supplied = Ret (data, issued, r, s) →
  ∃ outs,
    feed (source_ids po catalog)
      (Session table (list_to_set (Dict.values table)) 1000)
    = Ret (outs, s)
    ∧ r = match eventid_map s with [] => RNone | t => RTable t end
    ∧ (eventid_map s = [] ↔ table = [] ∧ outs = source_ids po catalog).
Proof.
  intros table Hnd Hfree. unfold _write_pha. fold table.
  destruct (write_events po pm catalog _) as [st| |] eqn:Hrun; try done.
  simpl. intros [= <- <- <- <-].
  apply write_events_feed in Hrun as (outs & Hfeed & Hlocal); [|done..].
  simpl in Hfeed, Hlocal.
  exists outs. split; [done|]. split.
  - rewrite Hlocal by done. by destruct (eventid_map (sess st)).
  - apply (feed_fresh _ _ _ _ Hnd) in Hfeed; done.
Qed.


(** C7, on the code. When the table holds a well-formed mapping for the
    source id of an event, [_map_eventid] returns the mapped string alone,
    and the writer unpacks it as if it were a pair: a mapped id that does
    not have exactly two digits makes the write raise [ValueError]; one of
    two digits is written as its first digit, and its second digit is bound
    to the writer's [eventid_map]. *)
Theorem write_event_forced_mapping (event : Event) (st : write_state)
    (ori : Origin) (mapped : string) :
  or_first (po event) (origins event) = Ret ori →
  Dict.get (eventid_map (sess st)) (last_component (resource_id event))
  = Some mapped →
  Py.isdigit mapped = true → Py.len mapped ≤ 9 →
  (Py.len mapped ≠ 2 → write_event po pm event st = Raise ValueError)
  ∧ (∀ a b q d,
       mapped = String a (String b EmptyString) →
       quality ori = Some q → depth ori = Some d →
       ∃ st', write_event po pm event st = Ret st'
              ∧ local st' = LChar (String b EmptyString)
              ∧ ∃ mag, lines st'
                       = (lines st
                          ++ event_lines event ori q d mag
                               (String a EmptyString))%list).
Proof.
  intros Hori Hget Hdig Hlen.
  pose proof (map_eventid_forced _ _ _ Hget) as Hmap.
  rewrite Hdig in Hmap. simpl in Hmap.
  assert (Nat.ltb 9 (Py.len mapped) = false) as Hlt
    by (apply Nat.ltb_ge; lia).
  rewrite Hlt in Hmap. split.
  - intros Hne. unfold write_event. rewrite Hori.
    destruct (match or_first (pm event) (magnitudes event)
              with Ret m => _ | _ => _ end) as [mag warned].
    rewrite Hmap. simpl.
    destruct mapped as [|a [|b [|c rest]]]; try done.
  - intros a b q d -> Hq Hd. unfold write_event. rewrite Hori.
    destruct (match or_first (pm event) (magnitudes event)
              with Ret m => _ | _ => _ end) as [mag warned].
    rewrite Hmap. simpl. rewrite Hq, Hd. simpl.
    eexists. split; [done|]. split; [done|]. exists mag. done.
Qed.

End WriterFacts.

Example scenario_is_event0 :
  Example.read "40.0" "2.5" "1.0" "0.5" "0.1" "12345"
  = Ret (ExampleCatalog.event0, 1).
Proof. vm_compute. reflexivity. Qed.

Example scenario_written :
  (λ '(data, issued, r, _), (data, issued, r))
    <$> ExampleCatalog.write [ExampleCatalog.event0] None
  = Ret ("#  2001    1   15    8   5   0.000000   40.0   -120.0   5.0   2.5  1.0   0.5   0.1       12345" ++ Example.nl ++
         "STA1  1.2345  1.0  P" ++ Example.nl, [], RNone).
Proof. vm_compute. reflexivity. Qed.

(** With a table supplied by the caller, the table comes back although the
    only id of the catalog went through the canonicalizer unchanged. *)
Lemma write_pha_returns_supplied_table :
  ∃ data issued s,
    ExampleCatalog.write [ExampleCatalog.event0] (Some [("evt-x", "5")])
    = Ret (data, issued, RTable [("evt-x", "5")], s)
    ∧ feed ["12345"] (Session [("evt-x", "5")] {[ "5" ]} 1000)
      = Ret (["12345"], s).
Proof.
  eexists _, _, _. split; vm_compute; reflexivity.
Qed.

Lemma write_pha_result_witness :
  ∃ data issued r s outs,
    ExampleCatalog.write [ExampleCatalog.event_with []; ExampleCatalog.orphan]
      None
    = Ret (data, issued, r, s)
    ∧ feed ["12345"] initial_session = Ret (outs, s)
    ∧ r = match eventid_map s with [] => RNone | t => RTable t end
    ∧ (eventid_map s = [] ↔ ([] : Dict.t string) = [] ∧ outs = ["12345"]).
Proof.
  pose (catalog := [ExampleCatalog.event_with []; ExampleCatalog.orphan]).
  assert (∃ data issued r s,
            ExampleCatalog.write catalog None = Ret (data, issued, r, s))
    as (data & issued & r & s & Hrun)
    by (eexists _, _, _, _; vm_compute; reflexivity).
  exists data, issued, r, s.
  destruct (write_pha_result Example.preferred_origin
              Example.preferred_magnitude catalog None data issued r s)
    as (outs & Hfeed & Hr & Hempty).
  - vm_compute. apply NoDup_singleton.
  - intros e He. reflexivity.
  - exact Hrun.
  - exists outs. split; [exact Hrun|]. split; [exact Hfeed|].
    split; [exact Hr|exact Hempty].
Defined.


Lemma write_event_forced_mapping_witness :
  let st table := {| lines := []; warnings := [];
                     sess := Session table (list_to_set (Dict.values table))
                               1000;
                     local := LTable |} in
  let write_event :=
    write_event Example.preferred_origin Example.preferred_magnitude in
  write_event ExampleCatalog.event0 (st [("12345", "777")])
  = Raise ValueError
  ∧ ∃ st', write_event ExampleCatalog.event0 (st [("12345", "77")]) = Ret st'
           ∧ local st' = LChar "7".
Proof.
  intros st write_event. split.
  - apply (write_event_forced_mapping Example.preferred_origin
             Example.preferred_magnitude ExampleCatalog.event0
             (st [("12345", "777")]) ExampleCatalog.origin0 "777");
      try reflexivity; simpl; lia.
  - destruct (write_event_forced_mapping Example.preferred_origin
                Example.preferred_magnitude ExampleCatalog.event0
                (st [("12345", "77")]) ExampleCatalog.origin0 "77")
      as [_ Htwo]; try reflexivity; [simpl; lia|].
    destruct (Htwo "7"%char "7"%char _ _ eq_refl eq_refl eq_refl)
      as (st' & Hrun & Hlocal & _).
    exists st'. split; [exact Hrun|exact Hlocal].
Defined.

(** The same on [_write_pha]: the mapped id "77" is written as "7", and the
    call returns the string "7" instead of the table. *)
Example write_pha_forced_mapping_two_digits :
  (λ '(data, issued, r, _), (data, r))
    <$> ExampleCatalog.write [ExampleCatalog.event0] (Some [("12345", "77")])
  = Ret ("#  2001    1   15    8   5   0.000000   40.0   -120.0   5.0   2.5  1.0   0.5   0.1       7" ++ Example.nl ++
         "STA1  1.2345  1.0  P" ++ Example.nl, RChar "7").
Proof. vm_compute. reflexivity. Qed.

Example write_pha_forced_mapping_raises :
  ExampleCatalog.write [ExampleCatalog.event0] (Some [("12345", "777")])
  = Raise ValueError.
Proof. vm_compute. reflexivity. Qed.

(** ** The reader *)

Section ReaderFacts.
Context `{Runtime}.

Ltac need_step Hrun :=
  match type of Hrun with
  | context [need _ ?o] =>
      let E := fresh "E" in
      destruct o eqn:E; simpl in Hrun; [|discriminate Hrun]
  end.

(** What a block that is read has produced: one origin, whose errors,
    quality and coordinates follow from the fields of the header, and the
    magnitudes the magnitude field calls for. *)
Lemma block2event_fields (h : heap) (block : string)
    (seed_map : Dict.t string) (id_default : string)
    (ph2comp : Dict.t string) (eventid_map : option nat) (n n' : nat)
    (ev : Event) (yr mo dy hr mn sc la lo dp mg eh ez rms id_ : string) :
  header_tokens block
  = [yr; mo; dy; hr; mn; sc; la; lo; dp; mg; eh; ez; rms; id_] →
  _block2event h block seed_map id_default ph2comp eventid_map n
  = Ret (ev, n') →
  ∃ (o : Origin) (q : OriginQuality) (feh fla fez frms : float),
    origins ev = [o] ∧ quality o = Some q
    ∧ py_float eh = Some feh ∧ py_float la = Some fla
    ∧ py_float ez = Some fez ∧ py_float rms = Some frms
    ∧ latitude o = fla
    ∧ latitude_errors o
      = (if PrimFloat.eqb feh 0 then None else Some (feh / DEG2KM)%float)
    ∧ longitude_errors o
      = (if PrimFloat.eqb feh 0 then None
         else if PrimFloat.ltb 89 fla then None
         else Some (feh / DEG2KM / cos (deg2rad fla))%float)
    ∧ depth_errors o
      = (if PrimFloat.eqb fez 0 then None else Some (fez * 1000)%float)
    ∧ standard_error q = (if PrimFloat.eqb frms 0 then None else Some frms)
    ∧ (if String.eqb (Py.lower mg) "nan"
       then magnitudes ev = [] ∧ preferred_magnitude_id ev = None
       else ∃ m x, py_float mg = Some x ∧ magnitudes ev = [m] ∧ mag m = x
                   ∧ preferred_magnitude_id ev
                     = Some (magnitude_resource_id m)).
Proof.
  unfold header_tokens, _block2event.
  destruct (Py.splitlines _) as [|header lines]; [done|].
  intros -> Hrun.
  destruct (match eventid_map with Some _ => _ | None => _ end)
    as [id'| |]; try done.
  simpl in Hrun.
  do 5 need_step Hrun.
  need_step Hrun. need_step Hrun.
  destruct (py_float eh) as [feh|] eqn:Eeh; simpl in Hrun; [|done].
  destruct (py_float la) as [fla|] eqn:Ela.
  2:{ destruct (PrimFloat.eqb feh 0); simpl in Hrun;
      destruct (py_float ez); simpl in Hrun; try done;
      destruct (py_float rms); simpl in Hrun; try done;
      destruct (read_pick_lines _ _ _ _ _ _) as [[[? ?] ?]| |];
      simpl in Hrun; done. }
  destruct (PrimFloat.eqb feh 0) eqn:Ezero; simpl in Hrun.
  all: destruct (py_float ez) as [fez|] eqn:Eez; simpl in Hrun; [|done].
  all: destruct (py_float rms) as [frms|] eqn:Erms; simpl in Hrun; [|done].
  all: destruct (read_pick_lines _ _ _ _ _ _) as [[[ps arrs] n1]| |];
         simpl in Hrun; try done.
  all: destruct (py_float lo) as [flo|]; simpl in Hrun; [|done].
  all: destruct (py_float dp) as [fdp|]; simpl in Hrun; [|done].
  all: destruct (String.eqb (Py.lower mg) "nan") eqn:Enan; simpl in Hrun.
  all: try (unfold new_Magnitude in Hrun;
            destruct (py_float mg) as [fmg|] eqn:Emg; simpl in Hrun;
            [|done]).
  all: injection Hrun as <- <-; simpl.
  all: eexists _, _, feh, fla, fez, frms; simpl; rewrite Ezero.
  all: repeat (split; [reflexivity|]).
  all: try (split; reflexivity).
  all: eexists _, fmg; repeat split; reflexivity.
Qed.

(** C4. For a block that is read, the origin's latitude and longitude
    errors are both absent when the horizontal-error field is zero, and
    otherwise the latitude error is the field divided by 111.2; the depth
    error is absent when the vertical-error field is zero and is the field
    times 1000 otherwise; the standard error is absent when the RMS field
    is zero and is the field otherwise. *)
Theorem block2event_error_fields (h : heap) (block : string)
    (seed_map : Dict.t string) (id_default : string)
    (ph2comp : Dict.t string) (eventid_map : option nat) (n n' : nat)
    (ev : Event) (yr mo dy hr mn sc la lo dp mg eh ez rms id_ : string) :
  header_tokens block
  = [yr; mo; dy; hr; mn; sc; la; lo; dp; mg; eh; ez; rms; id_] →
  _block2event h block seed_map id_default ph2comp eventid_map n
  = Ret (ev, n') →
  ∃ (o : Origin) (q : OriginQuality) (feh fez frms : float),
    origins ev = [o] ∧ quality o = Some q
    ∧ py_float eh = Some feh ∧ py_float ez = Some fez
    ∧ py_float rms = Some frms
    ∧ (if PrimFloat.eqb feh 0
       then latitude_errors o = None ∧ longitude_errors o = None
       else latitude_errors o = Some (feh / DEG2KM)%float)
    ∧ depth_errors o
      = (if PrimFloat.eqb fez 0 then None else Some (fez * 1000)%float)
    ∧ standard_error q = (if PrimFloat.eqb frms 0 then None else Some frms).
Proof.
  intros Htok Hrun.
  destruct (block2event_fields _ _ _ _ _ _ _ _ _ _ _ _ _ _ _ _ _ _ _ _ _ _ _
              Htok Hrun)
    as (o & q & feh & fla & fez & frms & Ho & Hq & Heh & Hla & Hez & Hrms
        & _ & Hlat & Hlon & Hdep & Hse & _).
  exists o, q, feh, fez, frms. repeat (split; [done|]).
  split; [|by split].
  destruct (PrimFloat.eqb feh 0); [by split|done].
Qed.

(** C5. For a block that is read, a magnitude field that reads "nan" in
    lower case gives an event without magnitudes and without preferred
    magnitude; any other field gives exactly one magnitude, whose value is
    the field parsed as a float, and which is the preferred one. *)
Theorem block2event_magnitude (h : heap) (block : string)
    (seed_map : Dict.t string) (id_default : string)
    (ph2comp : Dict.t string) (eventid_map : option nat) (n n' : nat)
    (ev : Event) (yr mo dy hr mn sc la lo dp mg eh ez rms id_ : string) :
  header_tokens block
  = [yr; mo; dy; hr; mn; sc; la; lo; dp; mg; eh; ez; rms; id_] →
  _block2event h block seed_map id_default ph2comp eventid_map n
  = Ret (ev, n') →
  if String.eqb (Py.lower mg) "nan"
  then magnitudes ev = [] ∧ preferred_magnitude_id ev = None
  else ∃ m x, py_float mg = Some x ∧ magnitudes ev = [m] ∧ mag m = x
              ∧ preferred_magnitude_id ev = Some (magnitude_resource_id m).
Proof.
  intros Htok Hrun.
  destruct (block2event_fields _ _ _ _ _ _ _ _ _ _ _ _ _ _ _ _ _ _ _ _ _ _ _
              Htok Hrun)
    as (o & q & feh & fla & fez & frms & _ & _ & _ & _ & _ & _
        & _ & _ & _ & _ & _ & Hmag).
  exact Hmag.
Qed.

(** The guard works towards the north pole: above 89 degrees the longitude
    error is absent. *)
Lemma block2event_north_pole (h : heap) (block : string)
    (seed_map : Dict.t string) (id_default : string)
    (ph2comp : Dict.t string) (eventid_map : option nat) (n n' : nat)
    (ev : Event) (yr mo dy hr mn sc la lo dp mg eh ez rms id_ : string)
    (fla : float) :
  header_tokens block
  = [yr; mo; dy; hr; mn; sc; la; lo; dp; mg; eh; ez; rms; id_] →
  _block2event h block seed_map id_default ph2comp eventid_map n
  = Ret (ev, n') →
  py_float la = Some fla → PrimFloat.ltb 89 fla = true →
  ∃ o, origins ev = [o] ∧ longitude_errors o = None.
Proof.
  intros Htok Hrun Hla Hnorth.
  destruct (block2event_fields _ _ _ _ _ _ _ _ _ _ _ _ _ _ _ _ _ _ _ _ _ _ _
              Htok Hrun)
    as (o & q & feh & fla' & fez & frms & Ho & _ & _ & Hla' & _ & _
        & _ & _ & Hlon & _).
  rewrite Hla in Hla'. injection Hla' as <-.
  exists o. split; [done|]. rewrite Hlon, Hnorth.
  by destruct (PrimFloat.eqb feh 0).
Qed.

(** C3, on the code. The guard compares the latitude itself with 89, not
    its absolute value: for a latitude field whose absolute value exceeds 89
    but which is not above 89 (a latitude below -89), and a horizontal-error
    field that is not zero, the longitude error is present. *)
Theorem block2event_south_pole (h : heap) (block : string)
    (seed_map : Dict.t string) (id_default : string)
    (ph2comp : Dict.t string) (eventid_map : option nat) (n n' : nat)
    (ev : Event) (yr mo dy hr mn sc la lo dp mg eh ez rms id_ : string)
    (fla feh : float) :
  header_tokens block
  = [yr; mo; dy; hr; mn; sc; la; lo; dp; mg; eh; ez; rms; id_] →
  _block2event h block seed_map id_default ph2comp eventid_map n
  = Ret (ev, n') →
  py_float la = Some fla → py_float eh = Some feh →
  PrimFloat.ltb 89 (PrimFloat.abs fla) = true →
  PrimFloat.ltb 89 fla = false →
  PrimFloat.eqb feh 0 = false →
  ∃ o, origins ev = [o]
       ∧ longitude_errors o
         = Some (feh / DEG2KM / cos (deg2rad fla))%float.
Proof.
  intros Htok Hrun Hla Heh _ Hsouth Hnonzero.
  destruct (block2event_fields _ _ _ _ _ _ _ _ _ _ _ _ _ _ _ _ _ _ _ _ _ _ _
              Htok Hrun)
    as (o & q & feh' & fla' & fez & frms & Ho & _ & Heh' & Hla' & _ & _
        & _ & _ & Hlon & _).
  rewrite Hla in Hla'. injection Hla' as <-.
  rewrite Heh in Heh'. injection Heh' as <-.
  exists o. split; [done|]. by rewrite Hlon, Hnonzero, Hsouth.
Qed.

(** C6. [_is_pha] answers true exactly for a file that can be read, whose
    first line starts with the marker, splits into 15 tokens, and whose
    tokens 2 to 7 are five integers and a float that the lenient
    constructor accepts.  It answers false for a file that cannot be
    opened and for an empty file, and whenever its body raises. *)
Theorem is_pha_spec (fs : FileSystem) (filename : string) :
  (_is_pha fs filename = true ↔
   ∃ content marker yr mo dy hr mn sc rest zyr zmo zdy zhr zmn fsc t,
     read_bytes fs filename = Some content
     ∧ Py.startswith "#" (Py.readline content) = true
     ∧ Py.split Py.bytes_isspace (Py.readline content)
       = marker :: yr :: mo :: dy :: hr :: mn :: sc :: rest
     ∧ length rest = 8
     ∧ py_int yr = Some zyr ∧ py_int mo = Some zmo ∧ py_int dy = Some zdy
     ∧ py_int hr = Some zhr ∧ py_int mn = Some zmn
     ∧ py_float sc = Some fsc
     ∧ utc_lenient zyr zmo zdy zhr zmn fsc = Some t)
  ∧ (read_bytes fs filename = None → _is_pha fs filename = false)
  ∧ (read_bytes fs filename = Some "" → _is_pha fs filename = false)
  ∧ (∀ e, is_pha_body fs filename = Raise e → _is_pha fs filename = false).
Proof.
  split; [|split; [|split]].
  - unfold _is_pha, is_pha_body. split.
    + destruct (read_bytes fs filename) as [content|]; [|done]. simpl.
      destruct (Py.startswith "#" (Py.readline content)) eqn:Hstart;
        [|done]. simpl.
      destruct (Nat.eqb (length (Py.split Py.bytes_isspace
                                   (Py.readline content))) 15) eqn:Hlen;
        [|done]. simpl.
      apply Nat.eqb_eq in Hlen.
      destruct (Py.split Py.bytes_isspace (Py.readline content))
        as [|marker [|yr [|mo [|dy [|hr [|mn [|sc rest]]]]]]] eqn:Htok;
        try (simpl in Hlen; lia).
      assert (length rest = 8) as Hrest by (simpl in Hlen; lia).
      unfold Py.slice. cbn [drop take Nat.sub].
      destruct (py_int yr) as [zyr|] eqn:Eyr; [|done]. simpl.
      destruct (py_int mo) as [zmo|] eqn:Emo; [|done]. simpl.
      destruct (py_int dy) as [zdy|] eqn:Edy; [|done]. simpl.
      destruct (py_int hr) as [zhr|] eqn:Ehr; [|done]. simpl.
      destruct (py_int mn) as [zmn|] eqn:Emn; [|done]. simpl.
      destruct (py_float sc) as [fsc|] eqn:Esc; [|done]. simpl.
      destruct (utc_lenient zyr zmo zdy zhr zmn fsc) as [t|] eqn:Et;
        [|done].
      intros _.
      exists content, marker, yr, mo, dy, hr, mn, sc, rest,
             zyr, zmo, zdy, zhr, zmn, fsc, t.
      repeat (split; [done|]). done.
    + intros (content & marker & yr & mo & dy & hr & mn & sc & rest & zyr
              & zmo & zdy & zhr & zmn & fsc & t & -> & Hstart & Htok & Hrest
              & Eyr & Emo & Edy & Ehr & Emn & Esc & Et).
      simpl. rewrite Hstart, Htok. simpl. rewrite Hrest. simpl.
      unfold Py.slice. cbn [drop take Nat.sub]. rewrite Eyr. simpl. rewrite Emo. simpl. rewrite Edy. simpl.
      rewrite Ehr. simpl. rewrite Emn. simpl. rewrite Esc. simpl.
      by rewrite Et.
  - intros Hnone. unfold _is_pha, is_pha_body. by rewrite Hnone.
  - intros Hempty. unfold _is_pha, is_pha_body. by rewrite Hempty.
  - intros e He. unfold _is_pha. by rewrite He.
Qed.

End ReaderFacts.

(** ** The reader on the scenario *)

Lemma block2event_error_fields_witness :
  ∃ (o : Origin) (q : OriginQuality) (feh fez frms : float),
    origins ExampleCatalog.event0 = [o] ∧ quality o = Some q
    ∧ py_float "1.0" = Some feh ∧ py_float "0.5" = Some fez
    ∧ py_float "0.1" = Some frms
    ∧ (if PrimFloat.eqb feh 0
       then latitude_errors o = None ∧ longitude_errors o = None
       else latitude_errors o = Some (feh / DEG2KM)%float)
    ∧ depth_errors o
      = (if PrimFloat.eqb fez 0 then None else Some (fez * 1000)%float)
    ∧ standard_error q = (if PrimFloat.eqb frms 0 then None else Some frms).
Proof.
  apply (block2event_error_fields (H := Example.runtime) ∅
           (Example.block "40.0" "2.5" "1.0" "0.5" "0.1" "12345")
           [] ".{}..{}" Example.ph2comp None 0 1 ExampleCatalog.event0
           "2001" "1" "15" "8" "5" "0.00" "40.0" "-120.0" "5.0" "2.5"
           "1.0" "0.5" "0.1" "12345");
    vm_compute; reflexivity.
Defined.

(** Zero error fields leave the three errors and the standard error
    absent. *)
Example zero_fields_absent :
  (λ '(ev, _),
     (λ o, (latitude_errors o, longitude_errors o, depth_errors o,
            standard_error <$> quality o)) <$> origins ev)
    <$> Example.read "40.0" "2.5" "0.0" "0" "0.00" "12345"
  = Ret [(None, None, None, Some None)].
Proof. vm_compute. reflexivity. Qed.

Lemma block2event_magnitude_witness :
  magnitudes (ExampleCatalog.event_with []) = []
  ∧ preferred_magnitude_id (ExampleCatalog.event_with []) = None.
Proof.
  apply (block2event_magnitude (H := Example.runtime) ∅
           (Example.block "40.0" "NaN" "1.0" "0.5" "0.1" "12345")
           [] ".{}..{}" Example.ph2comp None 0 1
           (ExampleCatalog.event_with [])
           "2001" "1" "15" "8" "5" "0.00" "40.0" "-120.0" "5.0" "NaN"
           "1.0" "0.5" "0.1" "12345");
    vm_compute; reflexivity.
Defined.

Example magnitude_read :
  (λ '(ev, _), (mag <$> magnitudes ev, preferred_magnitude_id ev))
    <$> Example.read "40.0" "2.5" "1.0" "0.5" "0.1" "12345"
  = Ret ([2.5%float], Some "smi:local/magnitude/12345").
Proof. vm_compute. reflexivity. Qed.

(** At latitude -89.5 with a horizontal error of 1 km the longitude error
    is about 1.03 degrees, not absent. *)
Lemma block2event_south_pole_witness :
  ∃ ev o,
    Example.read "-89.5" "2.5" "1.0" "0.5" "0.1" "12345" = Ret (ev, 1)
    ∧ PrimFloat.ltb 89 (PrimFloat.abs (-89.5)) = true
    ∧ origins ev = [o]
    ∧ longitude_errors o = Some (1 / DEG2KM / cos (deg2rad (-89.5)))%float
    ∧ longitude_errors o = Some 0x1.07cfae5882e01p+0%float.
Proof.
  assert (∃ ev, Example.read "-89.5" "2.5" "1.0" "0.5" "0.1" "12345"
                = Ret (ev, 1)) as [ev Hev]
    by (eexists; vm_compute; reflexivity).
  destruct (block2event_south_pole (H := Example.runtime) ∅
              (Example.block "-89.5" "2.5" "1.0" "0.5" "0.1" "12345")
              [] ".{}..{}" Example.ph2comp None 0 1 ev
              "2001" "1" "15" "8" "5" "0.00" "-89.5" "-120.0" "5.0" "2.5"
              "1.0" "0.5" "0.1" "12345" (-89.5)%float 1%float)
    as (o & Ho & Hlon); try (vm_compute; reflexivity); [exact Hev|].
  exists ev, o. split; [exact Hev|]. split; [reflexivity|].
  split; [exact Ho|]. split; [exact Hlon|].
  rewrite Hlon. vm_compute. reflexivity.
Defined.

Example is_pha_examples :
  _is_pha Example.fs "scenario.pha" = true
  ∧ _is_pha Example.fs "empty.pha" = false
  ∧ _is_pha Example.fs "missing.pha" = false.
Proof. vm_compute. auto. Qed.

(** Reading back what the writer made of the scenario gives the event the
    scenario was read to. *)
Example scenario_round_trip :
  (λ '(data, _, _, _), data)
    <$> ExampleCatalog.write [ExampleCatalog.event0] None
  = Ret Example.written
  ∧ (_read_pha Example.fs ∅ "written.pha" None None ".{}..{}"
       Example.ph2comp None "utf-8" 0).2
    = Ret ([ExampleCatalog.event0], 1)
  ∧ (_read_pha Example.fs ∅ "scenario.pha" None None ".{}..{}"
       Example.ph2comp None "utf-8" 0).2
    = Ret ([ExampleCatalog.event0], 1).
Proof. vm_compute. auto. Qed.

(** With an [eventid_map] from original to numeric id, the reader gives the
    event its original id back. *)
Example read_pha_original_id :
  (λ '(catalog, _), resource_id <$> (catalog : list Event))
    <$> (_read_pha Example.fs {[ 7 := [("evt-a", "12345")] ]} "scenario.pha"
           None None ".{}..{}" Example.ph2comp (Some 7) "utf-8" 0).2
  = Ret ["smi:local/event/evt-a"].
Proof. vm_compute. reflexivity. Qed.

(** ** More about the canonicalizer *)

(** A call on a source id the table does not hold, spelled out: it returns
    a pair, claims the id it returns, records it when it differs from the
    source id, and the id is what [loop_post] says of the candidate. *)
Lemma map_eventid_fresh_run (evid : string) (s : session) :
  Dict.get (eventid_map s) evid = None →
  ∃ idpha c',
    _map_eventid evid s
    = Ret (RPair idpha,
           Session (if negb (String.eqb idpha evid)
                    then Dict.set (eventid_map s) evid idpha
                    else eventid_map s)
                   ({[ idpha ]} ∪ used_ids s) c')
    ∧ loop_post (used_ids s) (candidate evid) (counter s) idpha c'.
Proof.
  intros Hget. unfold _map_eventid. rewrite Hget. cbv zeta.
  fold (candidate evid).
  destruct (while_claimed_total (used_ids s) (candidate evid) (counter s))
    as (idpha & c' & -> & Hpost).
  by exists idpha, c'.
Qed.

Lemma candidate_of_canonical (evid : string) :
  Py.isdigit evid = true → Py.len evid ≤ 9 → candidate evid = evid.
Proof.
  intros Hdig Hlen. unfold candidate. rewrite Hdig. cbn [negb].
  assert (Nat.ltb 9 (Py.len evid) = false) as -> by (apply Nat.ltb_ge; lia).
  done.
Qed.

Lemma loop_post_isdigit (used : gset string) (evid idpha : string) (c c' : N) :
  loop_post used (candidate evid) c idpha c' → Py.isdigit idpha = true.
Proof.
  intros (Hne & _ & [[-> _]|(k & _ & _ & -> & _)]); [|apply str_isdigit].
  apply isdigit_spec. split; [done|].
  by destruct (candidate_digits evid) as [? _].
Qed.

Lemma loop_post_counter (used : gset string) (cand idpha : string) (c c' : N) :
  loop_post used cand c idpha c' → (c ≤ c')%N.
Proof. intros (_ & _ & [[_ ->]|(k & ? & -> & _)]); lia. Qed.

Lemma loop_post_len (used : gset string) (evid idpha : string) (c c' : N) :
  loop_post used (candidate evid) c idpha c' →
  (c' ≤ 10 ^ 9)%N → Py.len idpha ≤ 9.
Proof.
  intros (_ & _ & [[-> _]|(k & _ & -> & -> & _)]) Hc.
  - by destruct (candidate_digits evid) as [_ ?].
  - apply str_len. lia.
Qed.

(** A canonical id that is neither in the table nor claimed goes through
    unchanged, and nothing but the set of claimed ids changes. *)
Lemma map_eventid_canonical (evid : string) (s : session) :
  Py.isdigit evid = true → Py.len evid ≤ 9 →
  Dict.get (eventid_map s) evid = None → evid ∉ used_ids s →
  _map_eventid evid s
  = Ret (RPair evid,
         Session (eventid_map s) ({[ evid ]} ∪ used_ids s) (counter s)).
Proof.
  intros Hdig Hlen Hget Hfree. unfold _map_eventid. rewrite Hget. cbv zeta.
  fold (candidate evid). rewrite (candidate_of_canonical evid Hdig Hlen).
  rewrite while_claimed_free; [|by apply isdigit_spec in Hdig as [? _]|done].
  by rewrite String.eqb_refl.
Qed.

(** X2. On a source id the table does not hold, and while the counter has
    not passed 10^9, the id comes back unchanged exactly when it is
    canonical (digits only, nine at most) and not claimed yet. *)
Theorem map_eventid_keeps_canonical (evid : string) (s s' : session)
    (r : returned_value) :
  Dict.get (eventid_map s) evid = None →
  _map_eventid evid s = Ret (r, s') →
  (counter s' ≤ 10 ^ 9)%N →
  idpha_of r = evid
  ↔ Py.isdigit evid = true ∧ Py.len evid ≤ 9 ∧ evid ∉ used_ids s.
Proof.
  intros Hget Hrun Hc. split.
  - destruct (map_eventid_fresh_run evid s Hget)
      as (idpha & c' & Hrun' & Hpost).
    rewrite Hrun in Hrun'. injection Hrun' as -> ->. simpl in *.
    intros ->. split; [by eapply loop_post_isdigit|].
    split; [by eapply loop_post_len|]. by destruct Hpost as (_ & ? & _).
  - intros (Hdig & Hlen & Hfree).
    rewrite (map_eventid_canonical evid s Hdig Hlen Hget Hfree) in Hrun.
    by injection Hrun as <- _.
Qed.

Lemma map_eventid_keeps_canonical_witness :
  idpha_of (RPair "12345") = "12345"
  ↔ Py.isdigit "12345" = true ∧ Py.len "12345" ≤ 9
    ∧ "12345" ∉ used_ids initial_session.
Proof.
  apply (map_eventid_keeps_canonical "12345" initial_session
           (Session [] ({[ "12345" ]} ∪ ∅) 1000) (RPair "12345")).
  - reflexivity.
  - vm_compute. reflexivity.
  - vm_compute. discriminate.
Defined.

(** X4. The id returned for a source id the table does not hold is a
    non-empty string of digits that was not claimed before the call and is
    claimed after it; it is the candidate, with the counter untouched, or
    the decimal form of a counter value drawn by the call. *)
Theorem map_eventid_claims_fresh (evid : string) (s s' : session)
    (r : returned_value) :
  Dict.get (eventid_map s) evid = None →
  _map_eventid evid s = Ret (r, s') →
  Py.isdigit (idpha_of r) = true
  ∧ (idpha_of r ∉ used_ids s)
  ∧ used_ids s' = {[ idpha_of r ]} ∪ used_ids s
  ∧ ((idpha_of r = candidate evid ∧ counter s' = counter s)
     ∨ ∃ k, (counter s ≤ k)%N ∧ idpha_of r = Py.str k
            ∧ counter s' = (k + 1)%N).
Proof.
  intros Hget Hrun.
  destruct (map_eventid_fresh_run evid s Hget) as (idpha & c' & Hrun' & Hpost).
  rewrite Hrun in Hrun'. injection Hrun' as -> ->. simpl.
  split; [by eapply loop_post_isdigit|].
  destruct Hpost as (_ & Hfree & Hcase). split; [done|]. split; [done|].
  destruct Hcase as [[-> ->]|(k & Hk & -> & -> & _)]; [by left|].
  right. by exists k.
Qed.

Lemma map_eventid_claims_fresh_witness :
  let s' := Session [("evt-x", "1000")] ({[ "1000" ]} ∪ ∅) 1001 in
  Py.isdigit "1000" = true
  ∧ ("1000" ∉ used_ids initial_session)
  ∧ used_ids s' = {[ "1000" ]} ∪ used_ids initial_session
  ∧ (("1000" = candidate "evt-x" ∧ counter s' = counter initial_session)
     ∨ ∃ k, (counter initial_session ≤ k)%N ∧ "1000" = Py.str k
            ∧ counter s' = (k + 1)%N).
Proof.
  intros s'.
  apply (map_eventid_claims_fresh "evt-x" initial_session s' (RPair "1000")).
  - reflexivity.
  - vm_compute. reflexivity.
Defined.

(** X5. Stability: once a source id has been given a different id of at
    most nine digits, the next call on the same source id returns that id
    again and leaves the session as it is. *)
Theorem map_eventid_stable (evid : string) (s s' : session)
    (r : returned_value) :
  Dict.get (eventid_map s) evid = None →
  _map_eventid evid s = Ret (r, s') →
  idpha_of r ≠ evid → Py.len (idpha_of r) ≤ 9 →
  _map_eventid evid s' = Ret (RStr (idpha_of r), s').
Proof.
  intros Hget Hrun Hne Hlen.
  destruct (map_eventid_fresh_run evid s Hget) as (idpha & c' & Hrun' & Hpost).
  rewrite Hrun in Hrun'. injection Hrun' as -> ->. simpl in *.
  apply String.eqb_neq in Hne. rewrite Hne. cbn [negb].
  rewrite (map_eventid_forced evid idpha); [|apply dict_get_set_eq].
  rewrite (loop_post_isdigit _ _ _ _ _ Hpost). cbn [negb orb].
  assert (Nat.ltb 9 (Py.len idpha) = false) as -> by (apply Nat.ltb_ge; lia).
  done.
Qed.

Lemma map_eventid_stable_witness :
  let s' := Session [("evt-x", "1000")] ({[ "1000" ]} ∪ ∅) 1001 in
  _map_eventid "evt-x" s' = Ret (RStr "1000", s').
Proof.
  intros s'.
  apply (map_eventid_stable "evt-x" initial_session s' (RPair "1000")).
  - reflexivity.
  - vm_compute. reflexivity.
  - discriminate.
  - simpl. lia.
Defined.

(** X6. A canonical id goes through unchanged the first time and is
    renumbered the second time: the second call draws its id from the
    counter and records it for the source id. *)
Theorem map_eventid_repeat_renumbered (evid : string) (s : session) :
  Py.isdigit evid = true → Py.len evid ≤ 9 →
  Dict.get (eventid_map s) evid = None → evid ∉ used_ids s →
  ∃ s1 k s2,
    _map_eventid evid s = Ret (RPair evid, s1)
    ∧ _map_eventid evid s1 = Ret (RPair (Py.str k), s2)
    ∧ (counter s ≤ k)%N ∧ Py.str k ≠ evid
    ∧ Dict.get (eventid_map s2) evid = Some (Py.str k).
Proof.
  intros Hdig Hlen Hget Hfree.
  pose proof (map_eventid_canonical evid s Hdig Hlen Hget Hfree) as Hrun1.
  set (s1 := Session (eventid_map s) ({[ evid ]} ∪ used_ids s) (counter s))
    in *.
  destruct (map_eventid_fresh_run evid s1 Hget) as (idpha & c' & Hrun2 & Hpost).
  rewrite (candidate_of_canonical evid Hdig Hlen) in Hpost.
  destruct Hpost as (Hne & Hnot & Hcase). simpl in Hnot, Hcase.
  assert (idpha ≠ evid) as Hdiff.
  { intros ->. apply Hnot, elem_of_union. left. by apply elem_of_singleton. }
  destruct Hcase as [[-> _]|(k & Hk & -> & -> & _)]; [done|].
  apply String.eqb_neq in Hdiff as Heqb. rewrite Heqb in Hrun2.
  cbn [negb] in Hrun2.
  eexists s1, k, _. split; [done|]. split; [exact Hrun2|].
  split; [done|]. split; [done|]. simpl. apply dict_get_set_eq.
Qed.

Lemma map_eventid_repeat_renumbered_witness :
  ∃ s1 k s2,
    _map_eventid "12345" initial_session = Ret (RPair "12345", s1)
    ∧ _map_eventid "12345" s1 = Ret (RPair (Py.str k), s2)
    ∧ (counter initial_session ≤ k)%N ∧ Py.str k ≠ "12345"
    ∧ Dict.get (eventid_map s2) "12345" = Some (Py.str k).
Proof.
  apply (map_eventid_repeat_renumbered "12345" initial_session);
    try reflexivity.
  - simpl. lia.
  - apply not_elem_of_empty.
Defined.

(** *** Sequences of source ids *)

Lemma feed_keeps_canonical (evids : list string) :
  ∀ s : session,
    NoDup evids →
    (∀ e, e ∈ evids →
          Py.isdigit e = true ∧ Py.len e ≤ 9
          ∧ Dict.get (eventid_map s) e = None ∧ (e ∉ used_ids s)) →
    feed evids s
    = Ret (evids,
           Session (eventid_map s) (list_to_set evids ∪ used_ids s)
                   (counter s)).
Proof.
  induction evids as [|evid rest IH]; intros s Hnd Hall.
  - simpl. destruct s as [m u c]. simpl. by rewrite union_empty_l_L.
  - apply NoDup_cons in Hnd as [Hnotin Hnd].
    destruct (Hall evid) as (Hdig & Hlen & Hget & Hfree); [by left|].
    simpl. rewrite (map_eventid_canonical evid s Hdig Hlen Hget Hfree).
    simpl. rewrite IH; [| done |].
    + simpl. do 3 f_equal.
      by rewrite (comm_L (∪) {[ evid ]} (list_to_set rest)), <-(assoc_L (∪)).
    + intros e He. destruct (Hall e) as (? & ? & ? & ?); [by right|].
      simpl. repeat split; try done.
      intros [->%elem_of_singleton|?]%elem_of_union; done.
Qed.

(** X7. A sequence of pairwise different canonical ids (digits only, nine
    at most) fed from the initial session comes back unchanged: nothing is
    recorded in the table and the counter is not used. *)
Theorem feed_canonical_unchanged (evids : list string) :
  NoDup evids →
  (∀ e, e ∈ evids → Py.isdigit e = true ∧ Py.len e ≤ 9) →
  feed evids initial_session
  = Ret (evids, Session [] (list_to_set evids) 1000).
Proof.
  intros Hnd Hall.
  rewrite (feed_keeps_canonical evids initial_session Hnd).
  - simpl. by rewrite union_empty_r_L.
  - intros e He. destruct (Hall e He) as [? ?].
    repeat split; done.
Qed.

Lemma feed_canonical_unchanged_witness :
  feed ["12345"; "7"; "000123"] initial_session
  = Ret (["12345"; "7"; "000123"],
         Session [] (list_to_set ["12345"; "7"; "000123"]) 1000).
Proof.
  apply feed_canonical_unchanged.
  - by apply (bool_decide_unpack _).
  - intros e He.
    repeat (apply elem_of_cons in He as [->|He]; [split; [reflexivity|simpl; lia]|]).
    by apply not_elem_of_nil in He.
Defined.

Lemma dict_set_new {V : Type} (d : Dict.t V) (k : string) (v : V) :
  Dict.get d k = None → Dict.set d k v = (d ++ [(k, v)])%list.
Proof.
  induction d as [|[k' v'] r IH]; simpl; [done|].
  destruct (String.eqb k' k); [done|]. intros Hget. by rewrite IH.
Qed.

Lemma renumbered_cons (evid o : string) (evids outs : list string) :
  renumbered (evid :: evids) (o :: outs)
  = ((if String.eqb o evid then [] else [(evid, o)])
     ++ renumbered evids outs)%list.
Proof.
  unfold renumbered. simpl. rewrite filter_cons. simpl.
  destruct (String.eqb o evid) eqn:E.
  - apply String.eqb_eq in E. subst. by case_decide.
  - apply String.eqb_neq in E. case_decide; [done|]. by subst.
Qed.

(** The table after a sequence of pairwise different source ids that it
    did not hold: the entries it had, then the renumbered ids in order. *)
Lemma feed_table (evids : list string) :
  ∀ (s s' : session) (outs : list string),
    NoDup evids →
    (∀ e, e ∈ evids → Dict.get (eventid_map s) e = None) →
    feed evids s = Ret (outs, s') →
    eventid_map s' = (eventid_map s ++ renumbered evids outs)%list.
Proof.
  induction evids as [|evid rest IH]; intros s s' outs Hnd Hfree Hfeed.
  - simpl in Hfeed. injection Hfeed as <- <-.
    unfold renumbered. simpl. by rewrite app_nil_r.
  - apply NoDup_cons in Hnd as [Hnotin Hnd]. simpl in Hfeed.
    assert (Dict.get (eventid_map s) evid = None) as Hget
      by (apply Hfree; by left).
    destruct (map_eventid_fresh_run evid s Hget) as (idpha & c' & Hrun & _).
    rewrite Hrun in Hfeed. simpl in Hfeed.
    destruct (feed rest _) as [[outs1 s2]| |] eqn:Hrest; try done.
    simpl in Hfeed. injection Hfeed as <- <-.
    rewrite renumbered_cons.
    apply IH in Hrest; [|done|].
    + rewrite Hrest. simpl.
      destruct (String.eqb idpha evid); simpl; [done|].
      by rewrite dict_set_new, <-app_assoc.
    + intros e He. simpl.
      assert (evid ≠ e) by (by intros ->).
      destruct (String.eqb idpha evid); simpl.
      * apply Hfree. by right.
      * rewrite dict_get_set_ne by done. apply Hfree. by right.
Qed.

(** X9. Fed from the initial session, a sequence of pairwise different
    source ids leaves a table that lists exactly the ids that came back
    changed, each with its new id, in the order of the sequence. *)
Theorem feed_table_lists_renumbered (evids outs : list string)
    (s : session) :
  NoDup evids →
  feed evids initial_session = Ret (outs, s) →
  eventid_map s = renumbered evids outs.
Proof.
  intros Hnd Hfeed.
  by rewrite (feed_table evids initial_session s outs Hnd (λ _ _, eq_refl)
                Hfeed).
Qed.

Lemma feed_table_lists_renumbered_witness :
  ∃ s, feed ["abc"; "123"; "x123"] initial_session
       = Ret (["1000"; "123"; "1001"], s)
       ∧ eventid_map s
         = renumbered ["abc"; "123"; "x123"] ["1000"; "123"; "1001"].
Proof.
  assert (∃ s, feed ["abc"; "123"; "x123"] initial_session
               = Ret (["1000"; "123"; "1001"], s)) as [s Hfeed]
    by (eexists; vm_compute; reflexivity).
  exists s. split; [exact Hfeed|].
  apply (feed_table_lists_renumbered _ _ s); [|exact Hfeed].
  by apply (bool_decide_unpack _).
Defined.

(** The ids returned for pairwise different source ids that the table did
    not hold are pairwise different and were not claimed before. *)
Lemma feed_fresh_outputs (evids : list string) :
  ∀ (s s' : session) (outs : list string),
    NoDup evids →
    (∀ e, e ∈ evids → Dict.get (eventid_map s) e = None) →
    feed evids s = Ret (outs, s') →
    NoDup outs ∧ length outs = length evids
    ∧ ∀ o, o ∈ outs → o ∉ used_ids s.
Proof.
  induction evids as [|evid rest IH]; intros s s' outs Hnd Hfree Hfeed.
  - simpl in Hfeed. injection Hfeed as <- <-.
    split; [apply NoDup_nil_2|]. split; [done|].
    intros o Ho. by apply not_elem_of_nil in Ho.
  - apply NoDup_cons in Hnd as [Hnotin Hnd]. simpl in Hfeed.
    assert (Dict.get (eventid_map s) evid = None) as Hget
      by (apply Hfree; by left).
    destruct (map_eventid_fresh_run evid s Hget)
      as (idpha & c' & Hrun & _ & Hnew & _).
    rewrite Hrun in Hfeed. simpl in Hfeed.
    destruct (feed rest _) as [[outs1 s2]| |] eqn:Hrest; try done.
    simpl in Hfeed. injection Hfeed as <- <-.
    apply IH in Hrest as (Hnd1 & Hlen1 & Hout1); [|done|].
    + simpl in Hout1. split; [|split].
      * apply NoDup_cons. split; [|done].
        intros Hin. apply (Hout1 _ Hin), elem_of_union. left.
        by apply elem_of_singleton.
      * simpl. by rewrite Hlen1.
      * intros o [->|Ho]%elem_of_cons; [done|].
        intros Hin. apply (Hout1 _ Ho), elem_of_union. by right.
    + intros e He. simpl.
      assert (evid ≠ e) by (by intros ->).
      destruct (String.eqb idpha evid); simpl.
      * apply Hfree. by right.
      * rewrite dict_get_set_ne by done. apply Hfree. by right.
Qed.

(** *** The inverted table of the reader *)

Lemma inverted_acc (l : list (string * string)) :
  ∀ acc : Dict.t string,
    NoDup (l.*2) →
    (∀ p, p ∈ l → Dict.get acc p.2 = None) →
    ∀ v k,
      Dict.get (fold_left (λ acc kv, Dict.set acc kv.2 kv.1) l acc) v = Some k
      ↔ Dict.get acc v = Some k ∨ (k, v) ∈ l.
Proof.
  induction l as [|[k0 v0] l IH]; intros acc Hnd Hfree v k.
  - simpl. split; [by left|]. intros [?|Hin]; [done|].
    by apply not_elem_of_nil in Hin.
  - simpl in *. apply NoDup_cons in Hnd as [Hnotin Hnd].
    rewrite IH; [|done|].
    + assert (Dict.get acc v0 = None) as Hv0
        by (apply (Hfree (k0, v0)); by left).
      destruct (decide (v0 = v)) as [<-|Hne].
      * rewrite dict_get_set_eq, Hv0. split.
        -- intros [[= <-]|Hin]; right; [by left|by right].
        -- intros [?|[[= <-]|Hin]%elem_of_cons]; [done|by left|by right].
      * rewrite dict_get_set_ne by done. split.
        -- intros [?|Hin]; [by left|right; by right].
        -- intros [?|[[= <- Heq]|Hin]%elem_of_cons];
             [by left|done|by right].
    + intros p Hp. rewrite dict_get_set_ne; [apply Hfree; by right|].
      intros Heq. apply Hnotin. rewrite Heq.
      apply list_elem_of_fmap. by exists p.
Qed.

Lemma inverted_get (d : Dict.t string) :
  NoDup (Dict.values d) →
  ∀ k v, Dict.get (Dict.inverted d) v = Some k ↔ (k, v) ∈ d.
Proof.
  intros Hnd k v. unfold Dict.inverted, Dict.items.
  rewrite (inverted_acc d []); [|done|done].
  simpl. split; [by intros [?|?]|by right].
Qed.

(** X11. The dictionary [{v: k for k, v in eventid_map.items()}] the reader
    looks ids up in: when the values of the caller's table are pairwise
    different, it maps a value to a key exactly when the table maps that
    key to that value; in any case the entry listed last for a value is the
    one it holds. *)
Theorem inverted_lookup (d : Dict.t string) :
  (NoDup (Dict.values d) →
   ∀ k v, Dict.get (Dict.inverted d) v = Some k ↔ (k, v) ∈ d)
  ∧ (∀ k v, Dict.get (Dict.inverted (d ++ [(k, v)])%list) v = Some k).
Proof.
  split.
  - apply inverted_get.
  - intros k v. unfold Dict.inverted, Dict.items.
    rewrite fold_left_app. simpl. apply dict_get_set_eq.
Qed.

Example inverted_examples :
  Dict.inverted [("evt-a", "1"); ("evt-b", "2")]
  = [("1", "evt-a"); ("2", "evt-b")]
  ∧ Dict.inverted [("evt-a", "1"); ("evt-b", "2"); ("evt-c", "1")]
    = [("1", "evt-c"); ("2", "evt-b")].
Proof. split; reflexivity. Qed.

(** Looking a returned id up in the inverted table gives the source id
    back. *)
Lemma feed_restores (evids outs : list string) (s : session) :
  NoDup evids →
  feed evids initial_session = Ret (outs, s) →
  ∀ i e o,
    evids !! i = Some e → outs !! i = Some o →
    remap (Dict.inverted (eventid_map s)) o = e.
Proof.
  intros Hnd Hfeed i e o He Ho. unfold remap.
  pose proof (feed_table evids initial_session s outs Hnd (λ _ _, eq_refl)
                Hfeed) as Htable.
  simpl in Htable.
  destruct (feed_fresh_outputs evids initial_session s outs Hnd
              (λ _ _, eq_refl) Hfeed) as (Hndo & Hlen & _).
  assert (NoDup (Dict.values (eventid_map s))) as Hvals.
  { rewrite Htable. unfold Dict.values, renumbered.
    eapply sublist_NoDup; [exact Hndo|].
    change (map snd ?l) with (l.*2).
    etrans; [apply fmap_sublist, sublist_filter|].
    by rewrite snd_zip by lia. }
  pose proof (inverted_get (eventid_map s) Hvals) as Hinv.
  assert (∀ k, (k, o) ∈ eventid_map s ↔ k = e ∧ e ≠ o) as Hmem.
  { intros k. rewrite Htable. unfold renumbered.
    rewrite list_elem_of_filter. simpl. split.
    - intros [Hne Hin]. apply elem_of_lookup_zip_with in Hin
        as (j & a & b & [= -> ->] & Ha & Hb).
      assert (j = i) as ->
        by exact (proj1 (NoDup_alt outs) Hndo j i _ Hb Ho).
      rewrite He in Ha. injection Ha as ->. done.
    - intros [-> Hne]. split; [done|].
      apply elem_of_lookup_zip_with. by exists i, e, o. }
  destruct (Dict.get (Dict.inverted (eventid_map s)) o) as [k|] eqn:Hget.
  - apply Hinv, Hmem in Hget. tauto.
  - destruct (decide (e = o)) as [->|Hne]; [done|].
    assert (Dict.get (Dict.inverted (eventid_map s)) o = Some e) as Hsome
      by (by apply Hinv, Hmem).
    congruence.
Qed.

(** X10. Writing then reading: after a sequence of pairwise different
    source ids fed from the initial session, looking a returned id up in
    the inverted table, and keeping it when it is not there, gives the
    source id back.  This is the substitution [_block2event] makes when it
    is handed the table a write returned. *)
Theorem feed_table_restores_ids (evids outs : list string) (s : session) :
  NoDup evids →
  feed evids initial_session = Ret (outs, s) →
  ∀ i e o,
    evids !! i = Some e → outs !! i = Some o →
    match Dict.get (Dict.inverted (eventid_map s)) o with
    | Some original => original
    | None => o
    end = e.
Proof. exact (feed_restores evids outs s). Qed.

Lemma feed_table_restores_ids_witness :
  ∃ s, feed ["abc"; "123"; "x123"] initial_session
       = Ret (["1000"; "123"; "1001"], s)
       ∧ ∀ i e o,
           ["abc"; "123"; "x123"] !! i = Some e →
           ["1000"; "123"; "1001"] !! i = Some o →
           match Dict.get (Dict.inverted (eventid_map s)) o with
           | Some original => original
           | None => o
           end = e.
Proof.
  assert (∃ s, feed ["abc"; "123"; "x123"] initial_session
               = Ret (["1000"; "123"; "1001"], s)) as [s Hfeed]
    by (eexists; vm_compute; reflexivity).
  exists s. split; [exact Hfeed|].
  apply (feed_table_restores_ids _ _ s); [|exact Hfeed].
  by apply (bool_decide_unpack _).
Defined.

(** X1. A call of [_map_eventid] always comes to an end, and the only
    exception it raises is [ValueError]; it raises exactly when the table
    holds, for the source id, a value that is not a string of at most nine
    digits. *)
Theorem map_eventid_outcome (evid : string) (s : session) :
  _map_eventid evid s ≠ Timeout
  ∧ (∀ e, _map_eventid evid s = Raise e → e = ValueError)
  ∧ ((∃ e, _map_eventid evid s = Raise e)
     ↔ ∃ v, Dict.get (eventid_map s) evid = Some v ∧ ¬ valid_id v).
Proof.
  destruct (Dict.get (eventid_map s) evid) as [v|] eqn:Hget.
  - rewrite (map_eventid_forced evid v s Hget).
    destruct (Py.isdigit v) eqn:Hdig; cbn [negb orb].
    + destruct (Nat.ltb 9 (Py.len v)) eqn:Hlen.
      * apply Nat.ltb_lt in Hlen.
        split; [done|]. split; [by intros e [= <-]|].
        split; [|by eexists].
        intros _. exists v. split; [done|]. intros [_ ?]. lia.
      * apply Nat.ltb_ge in Hlen.
        split; [done|]. split; [done|]. split; [by intros [e ?]|].
        intros (v' & [= <-] & Hbad). destruct Hbad. by split.
    + split; [done|]. split; [by intros e [= <-]|].
      split; [|by eexists].
      intros _. exists v. split; [done|]. intros [? _]. congruence.
  - destruct (map_eventid_fresh_run evid s Hget) as (idpha & c' & -> & _).
    split; [done|]. split; [done|]. split; [by intros [e ?]|].
    by intros (v & ? & _).
Qed.

Lemma map_eventid_raises (evid : string) (s : session) (e : exn) :
  _map_eventid evid s = Raise e → e = ValueError.
Proof.
  destruct (Dict.get (eventid_map s) evid) as [v|] eqn:Hget.
  - rewrite (map_eventid_forced evid v s Hget).
    destruct (_ || _); [|done]. by intros [= <-].
  - by destruct (map_eventid_fresh_run evid s Hget) as (idpha & c' & -> & _).
Qed.

(** A call that returns leaves a table that is the one it found, followed
    by at most one new entry; it claims ids and moves the counter forward,
    and never the other way round. *)
Lemma map_eventid_extends (evid : string) (s s' : session)
    (r : returned_value) :
  _map_eventid evid s = Ret (r, s') →
  (∃ added, eventid_map s' = (eventid_map s ++ added)%list)
  ∧ used_ids s ⊆ used_ids s'
  ∧ (counter s ≤ counter s')%N.
Proof.
  destruct (Dict.get (eventid_map s) evid) as [v|] eqn:Hget.
  - rewrite (map_eventid_forced evid v s Hget).
    destruct (_ || _); [done|]. intros [= <- <-].
    split; [exists []; by rewrite app_nil_r|]. split; [done|lia].
  - destruct (map_eventid_fresh_run evid s Hget)
      as (idpha & c' & -> & Hpost).
    intros [= <- <-]. simpl. split; [|split].
    + destruct (String.eqb idpha evid); cbn [negb].
      * exists []. by rewrite app_nil_r.
      * exists [(evid, idpha)]. by apply dict_set_new.
    + apply union_subseteq_r.
    + by eapply loop_post_counter.
Qed.

Lemma dict_get_app_some {V : Type} (d d' : Dict.t V) (k : string) (v : V) :
  Dict.get d k = Some v → Dict.get (d ++ d')%list k = Some v.
Proof.
  induction d as [|[k' v'] r IH]; simpl; [done|].
  destruct (String.eqb k' k); [done|]. exact IH.
Qed.

(** ** More about the writer *)

(** *** The last component of a resource id *)

Lemma string_app_cons (c : ascii) (a b : string) :
  String c a ++ b = String c (a ++ b).
Proof. reflexivity. Qed.

Lemma string_app_nil_r (a : string) : a ++ "" = a.
Proof.
  induction a as [|x a IH]; [done|]. by rewrite string_app_cons, IH.
Qed.

Lemma string_of_list_ascii_app (l1 l2 : list ascii) :
  string_of_list_ascii (l1 ++ l2)
  = string_of_list_ascii l1 ++ string_of_list_ascii l2.
Proof.
  induction l1 as [|c l1 IH]; simpl; [done|].
  by rewrite string_app_cons, IH.
Qed.

Lemma string_app_assoc (a b c : string) : (a ++ b) ++ c = a ++ (b ++ c).
Proof.
  induction a as [|x a IH]; [done|]. by rewrite !string_app_cons, IH.
Qed.

Lemma split_on_go_nonempty (sep : ascii) (s : string) :
  ∀ tok, Py.split_on_go sep tok s ≠ [].
Proof.
  induction s as [|c r IH]; intros tok; simpl; [done|].
  destruct (Ascii.eqb c sep); [done|apply IH].
Qed.

Lemma last_default_irrelevant {A : Type} (l : list A) (d d' : A) :
  l ≠ [] → List.last l d = List.last l d'.
Proof.
  induction l as [|a l IH]; [done|]. intros _.
  destruct l as [|b l]; [done|]. cbn [List.last]. by apply IH.
Qed.

Lemma last_cons_nonempty {A : Type} (a : A) (l : list A) (d : A) :
  l ≠ [] → List.last (a :: l) d = List.last l d.
Proof. by destruct l. Qed.

(** Without separator there is one part: the text itself. *)
Lemma split_on_go_none (sep : ascii) (s : string) :
  ∀ tok, Py.contains sep s = false →
         Py.split_on_go sep tok s = [string_of_list_ascii (rev tok) ++ s].
Proof.
  induction s as [|c r IH]; intros tok; simpl.
  - intros _. by rewrite string_app_nil_r.
  - destruct (Ascii.eqb c sep); [done|]. simpl. intros Hr.
    rewrite IH by done. simpl. rewrite string_of_list_ascii_app. simpl.
    by rewrite string_app_assoc.
Qed.

(** The last part is what follows the last separator. *)
Lemma split_on_go_last_after (sep : ascii) (p x : string) (d : string) :
  ∀ tok,
    List.last (Py.split_on_go sep tok (p ++ String sep x)) d
    = List.last (Py.split_on_go sep [] x) d.
Proof.
  induction p as [|c p IH]; intros tok; simpl.
  - rewrite Ascii.eqb_refl.
    apply last_cons_nonempty, split_on_go_nonempty.
  - destruct (Ascii.eqb c sep).
    + rewrite last_cons_nonempty by apply split_on_go_nonempty. apply IH.
    + apply IH.
Qed.

Lemma contains_app_sep (sep : ascii) (p x : string) :
  Py.contains sep (p ++ String sep x) = true.
Proof.
  induction p as [|c p IH]; simpl; [by rewrite Ascii.eqb_refl|].
  rewrite IH. apply orb_true_r.
Qed.

(** A text that holds a separator ends with a separator-free part, which
    is the last part of the split. *)
Lemma split_on_go_last_split (sep : ascii) (s : string) (d : string) :
  ∀ tok,
    Py.contains sep s = true →
    ∃ p x, s = p ++ String sep x ∧ Py.contains sep x = false
           ∧ List.last (Py.split_on_go sep tok s) d = x.
Proof.
  induction s as [|c r IH]; intros tok; simpl; [done|].
  destruct (Ascii.eqb c sep) eqn:Hc.
  - apply Ascii.eqb_eq in Hc. subst c. intros _.
    rewrite last_cons_nonempty by apply split_on_go_nonempty.
    destruct (Py.contains sep r) eqn:Hr.
    + destruct (IH [] eq_refl) as (p & x & -> & Hx & Hlast).
      exists (String sep p), x. by rewrite Hlast.
    + exists "", r. rewrite split_on_go_none by done. done.
  - simpl. intros Hr.
    destruct (IH (c :: tok) Hr) as (p & x & -> & Hx & Hlast).
    exists (String c p), x. by rewrite Hlast.
Qed.

Lemma last_component_after (p x : string) :
  last_component (p ++ String "/" x) = last_component x.
Proof.
  unfold last_component at 1. rewrite contains_app_sep.
  unfold Py.split_on. rewrite split_on_go_last_after.
  unfold last_component. destruct (Py.contains "/" x) eqn:Hx.
  - apply last_default_irrelevant, split_on_go_nonempty.
  - by rewrite split_on_go_none.
Qed.

(** X16. [evid.split('/')[-1] if '/' in evid else evid] is the part of
    [evid] after its last slash: it holds no slash, what precedes it in
    [evid] is empty or ends with a slash, and putting a path in front of
    [evid] does not change it. *)
Theorem last_component_spec (evid : string) :
  Py.contains "/" (last_component evid) = false
  ∧ (∃ prefix, evid = prefix ++ last_component evid
               ∧ (prefix = "" ∨ ∃ p, prefix = p ++ "/"))
  ∧ (∀ p, last_component (p ++ "/" ++ evid) = last_component evid).
Proof.
  split; [|split].
  - unfold last_component, Py.split_on.
    destruct (Py.contains "/" evid) eqn:Hc; [|done].
    by destruct (split_on_go_last_split "/" evid evid [] Hc)
      as (p & x & _ & Hx & ->).
  - unfold last_component. destruct (Py.contains "/" evid) eqn:Hc.
    + destruct (split_on_go_last_split "/" evid evid [] Hc)
        as (p & x & Heq & Hx & Hlast).
      unfold Py.split_on. rewrite Hlast.
      exists (p ++ "/"). split; [|right; by exists p].
      by rewrite string_app_assoc.
    + exists "". split; [done|by left].
  - intros p. apply last_component_after.
Qed.

(** *** The event loop *)

Section WriterMore.
Context `{Runtime}.
Context (po : Event → option Origin) (pm : Event → option Magnitude).

Lemma write_event_extends (event : Event) (st st' : write_state) :
  write_event po pm event st = Ret st' →
  (∃ added, eventid_map (sess st')
            = (eventid_map (sess st) ++ added)%list)
  ∧ used_ids (sess st) ⊆ used_ids (sess st')
  ∧ (counter (sess st) ≤ counter (sess st'))%N.
Proof.
  intros Hrun. destruct (has_origin po event) eqn:Hori.
  - destruct (write_event_origin po pm event st st' Hori Hrun)
      as (r & evid & Hmap & _).
    by apply map_eventid_extends in Hmap.
  - rewrite (write_event_no_origin po pm event st Hori) in Hrun.
    injection Hrun as <-. simpl.
    split; [exists []; by rewrite app_nil_r|]. split; [done|lia].
Qed.

Lemma write_events_extends (catalog : list Event) :
  ∀ st st' : write_state,
    write_events po pm catalog st = Ret st' →
    (∃ added, eventid_map (sess st')
              = (eventid_map (sess st) ++ added)%list)
    ∧ used_ids (sess st) ⊆ used_ids (sess st')
    ∧ (counter (sess st) ≤ counter (sess st'))%N.
Proof.
  induction catalog as [|event rest IH]; intros st st' Hrun.
  - simpl in Hrun. injection Hrun as <-.
    split; [exists []; by rewrite app_nil_r|]. split; [done|lia].
  - simpl in Hrun.
    destruct (write_event po pm event st) as [st1| |] eqn:Hev; try done.
    simpl in Hrun.
    destruct (write_event_extends event st st1 Hev)
      as ([a1 Ht1] & Hu1 & Hc1).
    destruct (IH st1 st' Hrun) as ([a2 Ht2] & Hu2 & Hc2).
    split; [|split].
    + exists (a1 ++ a2)%list. by rewrite Ht2, Ht1, app_assoc.
    + by etrans.
    + lia.
Qed.

(** X3. [_write_pha] never rewrites the table the caller supplied: at the
    end of a write the table is the supplied one followed by new entries,
    so every supplied key still has its value; the values of the supplied
    table are claimed ids, and the counter has not gone below 1000. *)
Theorem write_pha_extends_table (catalog : list Event)
    (d : Dict.t string) (data : string) (issued : list string)
    (r : write_result) (s : session) :
  _write_pha po pm catalog (Some d) = Ret (data, issued, r, s) →
  (∃ added, eventid_map s = (d ++ added)%list)
  ∧ (∀ k v, Dict.get d k = Some v → Dict.get (eventid_map s) k = Some v)
  ∧ (∀ v, v ∈ Dict.values d → v ∈ used_ids s)
  ∧ (1000 ≤ counter s)%N.
Proof.
  unfold _write_pha.
  destruct (write_events po pm catalog _) as [st| |] eqn:Hrun; try done.
  simpl. intros [= <- <- <- <-].
  apply write_events_extends in Hrun as ([added Ht] & Hu & Hc).
  simpl in Ht, Hu, Hc.
  split; [by exists added|]. split; [|split; [|done]].
  - intros k v Hget. rewrite Ht. by apply dict_get_app_some.
  - intros v Hv. apply Hu. by apply elem_of_list_to_set.
Qed.

(** X8. Without a supplied table, a catalog whose written events have
    pairwise different source ids, each of at most nine digits, is written
    with these ids unchanged: [_write_pha] returns [None], the table stays
    empty, the ids claimed are the source ids and the counter is not
    used. *)
Theorem write_pha_canonical_ids (catalog : list Event) (data : string)
    (issued : list string) (r : write_result) (s : session) :
  NoDup (source_ids po catalog) →
  (∀ e, e ∈ source_ids po catalog → Py.isdigit e = true ∧ Py.len e ≤ 9) →
  _write_pha po pm catalog None = Ret (data, issued, r, s) →
  r = RNone ∧ s = Session [] (list_to_set (source_ids po catalog)) 1000.
Proof.
  intros Hnd Hall. unfold _write_pha.
  destruct (write_events po pm catalog _) as [st| |] eqn:Hrun; try done.
  simpl. intros [= <- <- <- <-].
  apply write_events_feed in Hrun as (outs & Hfeed & Hlocal); [|done..].
  simpl in Hfeed, Hlocal.
  rewrite (feed_keeps_canonical _ _ Hnd) in Hfeed.
  - injection Hfeed as <- <-. simpl.
    rewrite Hlocal by done. split; [done|].
    by rewrite union_empty_r_L.
  - intros e He. destruct (Hall e He) as [? ?]. simpl.
    repeat split; done.
Qed.

(** What a write can raise. *)
Lemma write_event_raises (event : Event) (st : write_state) :
  write_event po pm event st ≠ Timeout
  ∧ ∀ e, write_event po pm event st = Raise e →
         e = ValueError ∨ e = AttributeError ∨ e = TypeError.
Proof.
  unfold write_event.
  destruct (or_first_cases (po event) (origins event))
    as [[ori ->]|[-> _]]; [|by split].
  destruct (match or_first (pm event) (magnitudes event)
            with Ret m => _ | _ => _ end) as [mag warned].
  pose proof (map_eventid_terminates
                (last_component (resource_id event)) (sess st)) as Hterm.
  pose proof (map_eventid_raises
                (last_component (resource_id event)) (sess st)) as Hval.
  destruct (_map_eventid _ _) as [[r s]|e|]; simpl.
  - destruct (unpack2 r) as [[evid lm]|e|] eqn:Hunpack; simpl.
    + destruct (quality ori) as [q|]; simpl.
      * destruct (depth ori) as [d|]; simpl; [by split|].
        split; [done|]. intros e [= <-]. right. by right.
      * split; [done|]. intros e [= <-]. right. by left.
    + split; [done|]. intros e' [= <-]. left.
      by destruct r as [[|a [|b [|c rest]]]|idpha]; simpl in Hunpack;
        simplify_eq.
    + by destruct r as [[|a [|b [|c rest]]]|idpha].
  - split; [done|]. intros e' [= <-]. left. by apply Hval.
  - done.
Qed.

Lemma write_events_raises (catalog : list Event) :
  ∀ st : write_state,
    write_events po pm catalog st ≠ Timeout
    ∧ ∀ e, write_events po pm catalog st = Raise e →
           e = ValueError ∨ e = AttributeError ∨ e = TypeError.
Proof.
  induction catalog as [|event rest IH]; intros st; [by split|].
  simpl. destruct (write_event_raises event st) as [Hterm Hexn].
  destruct (write_event po pm event st) as [st1|e|]; simpl;
    [apply IH| |done].
  split; [done|]. intros e' [= <-]. by apply Hexn.
Qed.

(** X12. The event loop of [_write_pha] always comes to an end, and the
    [IndexError] of a missing origin or magnitude never leaves it: what it
    raises is a [ValueError] (from the canonicalizer, or from unpacking its
    result), an [AttributeError] (an origin without quality) or a
    [TypeError] (an origin without depth). *)
Theorem write_pha_raises (catalog : list Event)
    (supplied : option (Dict.t string)) :
  _write_pha po pm catalog supplied ≠ Timeout
  ∧ ∀ e, _write_pha po pm catalog supplied = Raise e →
         e = ValueError ∨ e = AttributeError ∨ e = TypeError.
Proof.
  unfold _write_pha.
  match goal with
  | |- context [write_events po pm catalog ?st] =>
      destruct (write_events_raises catalog st) as [Hterm Hexn];
      destruct (write_events po pm catalog st) as [st'|e|]
  end; simpl; [by split| |done].
  split; [done|]. intros e' [= <-]. by apply Hexn.
Qed.




(** The warnings of an event that is written or skipped. *)
Lemma write_event_warnings (event : Event) (st st' : write_state) :
  write_event po pm event st = Ret st' →
  warnings st' = (warnings st ++ warnings_for po pm event)%list.
Proof.
  unfold warnings_for, has_origin, write_event.
  destruct (or_first_cases (po event) (origins event))
    as [[ori ->]|[-> _]]; [|by intros [= <-]].
  destruct (or_first (pm event) (magnitudes event)) as [m|e|].
  all: destruct (_map_eventid _ _) as [[r s]| |]; try done; simpl.
  all: destruct (unpack2 r) as [[evid lm]| |]; try done; simpl.
  all: destruct (quality ori) as [q|]; try done; simpl.
  all: destruct (depth ori) as [d|]; try done; simpl.
  all: by intros [= <-].
Qed.

Lemma write_events_warnings (catalog : list Event) :
  ∀ st st' : write_state,
    write_events po pm catalog st = Ret st' →
    warnings st'
    = (warnings st ++ concat (warnings_for po pm <$> catalog))%list.
Proof.
  induction catalog as [|event rest IH]; intros st st' Hrun.
  - simpl in Hrun. injection Hrun as <-. simpl. by rewrite app_nil_r.
  - simpl in Hrun.
    destruct (write_event po pm event st) as [st1| |] eqn:Hev; try done.
    simpl in Hrun. apply write_event_warnings in Hev.
    rewrite (IH st1 st' Hrun), Hev. simpl. by rewrite app_assoc.
Qed.

(** X14. The warnings of a write that returns are, in catalog order, one
    "Skip writing events with missing origin" for each event without
    origin and one "Missing magnitude will be set to 0.0" for each event
    with an origin and no magnitude, and nothing else. *)
Theorem write_pha_warnings (catalog : list Event)
    (supplied : option (Dict.t string)) (data : string)
    (issued : list string) (r : write_result) (s : session) :
  _write_pha po pm catalog supplied = Ret (data, issued, r, s) →
  issued = concat (warnings_for po pm <$> catalog).
Proof.
  unfold _write_pha.
  destruct (write_events po pm catalog _) as [st| |] eqn:Hrun; try done.
  simpl. intros [= <- <- <- <-].
  by apply write_events_warnings in Hrun.
Qed.

(** The warnings issued so far have no influence on what is written. *)
Lemma write_event_written_part (event : Event) (st1 st2 : write_state) :
  written_part st1 = written_part st2 →
  written_part <$> write_event po pm event st1
  = written_part <$> write_event po pm event st2.
Proof.
  destruct st1 as [l1 w1 s1 m1], st2 as [l2 w2 s2 m2].
  unfold written_part. simpl. intros [= -> -> ->].
  unfold write_event.
  destruct (or_first_cases (po event) (origins event))
    as [[ori ->]|[-> _]]; [|done].
  destruct (match or_first (pm event) (magnitudes event)
            with Ret m => _ | _ => _ end) as [mag warned].
  simpl.
  destruct (_map_eventid _ _) as [[r s]| |]; try done; simpl.
  destruct (unpack2 r) as [[evid lm]| |]; try done; simpl.
  destruct (quality ori) as [q|]; try done; simpl.
  destruct (depth ori) as [d|]; try done.
Qed.

Lemma write_events_skips (catalog : list Event) :
  ∀ st1 st2 : write_state,
    written_part st1 = written_part st2 →
    written_part <$> write_events po pm catalog st1
    = written_part <$> write_events po pm (filter (has_origin po) catalog)
                         st2.
Proof.
  induction catalog as [|event rest IH]; intros st1 st2 Heq.
  - simpl. by rewrite Heq.
  - rewrite filter_cons. simpl.
    destruct (has_origin po event) eqn:Hori.
    + rewrite decide_True by done. simpl.
      pose proof (write_event_written_part event st1 st2 Heq) as Hev.
      destruct (write_event po pm event st1) as [a1|e1|],
               (write_event po pm event st2) as [a2|e2|];
        simpl in Hev; try done.
      simpl. apply IH. congruence.
    + case_decide as Hd; [destruct Hd|].
      rewrite (write_event_no_origin po pm event st1 Hori). simpl.
      by apply IH.
Qed.

(** X13. Events without origin do not change what is written: the text,
    the returned value and the final session of a write are those of the
    write of the catalog without these events, whether it returns or
    raises. *)
Theorem write_pha_skips_without_origin (catalog : list Event)
    (supplied : option (Dict.t string)) :
  (λ '(data, _, r, s), (data, r, s)) <$> _write_pha po pm catalog supplied
  = (λ '(data, _, r, s), (data, r, s))
      <$> _write_pha po pm (filter (has_origin po) catalog) supplied.
Proof.
  unfold _write_pha.
  match goal with
  | |- context [write_events po pm catalog ?st] =>
      pose proof (write_events_skips catalog st st eq_refl) as Hrun;
      destruct (write_events po pm catalog st) as [a1|e1|],
               (write_events po pm (filter (has_origin po) catalog) st)
                 as [a2|e2|]
  end; simpl in Hrun |- *; try done.
  - unfold written_part in Hrun.
    injection Hrun as -> -> ->. done.
  - by injection Hrun as ->.
Qed.

End WriterMore.

Lemma write_pha_extends_table_witness :
  let d : Dict.t string := [("evt-a", "12345")] in
  ∃ data issued r s,
    ExampleCatalog.write [ExampleCatalog.event0] (Some d)
    = Ret (data, issued, r, s)
    ∧ eventid_map s = [("evt-a", "12345"); ("12345", "1000")]
    ∧ (∃ added, eventid_map s = (d ++ added)%list)
    ∧ (∀ k v, Dict.get d k = Some v → Dict.get (eventid_map s) k = Some v)
    ∧ (∀ v, v ∈ Dict.values d → v ∈ used_ids s)
    ∧ (1000 ≤ counter s)%N.
Proof.
  intros d.
  assert (∃ data issued r s,
            ExampleCatalog.write [ExampleCatalog.event0] (Some d)
            = Ret (data, issued, r, s)
            ∧ eventid_map s = [("evt-a", "12345"); ("12345", "1000")])
    as (data & issued & r & s & Hrun & Htable)
    by (eexists _, _, _, _; split; vm_compute; reflexivity).
  exists data, issued, r, s. split; [exact Hrun|]. split; [exact Htable|].
  exact (write_pha_extends_table Example.preferred_origin
           Example.preferred_magnitude [ExampleCatalog.event0] d data issued
           r s Hrun).
Defined.

Lemma write_pha_canonical_ids_witness :
  ∃ data issued r s,
    ExampleCatalog.write [ExampleCatalog.event0] None
    = Ret (data, issued, r, s)
    ∧ r = RNone
    ∧ s = Session []
            (list_to_set
               (source_ids Example.preferred_origin [ExampleCatalog.event0]))
            1000.
Proof.
  assert (∃ data issued r s,
            ExampleCatalog.write [ExampleCatalog.event0] None
            = Ret (data, issued, r, s))
    as (data & issued & r & s & Hrun)
    by (eexists _, _, _, _; vm_compute; reflexivity).
  exists data, issued, r, s. split; [exact Hrun|].
  apply (write_pha_canonical_ids Example.preferred_origin
           Example.preferred_magnitude [ExampleCatalog.event0] data issued
           r s).
  - vm_compute. apply NoDup_singleton.
  - intros e He. vm_compute in He.
    apply list_elem_of_singleton in He as ->. split; [reflexivity|simpl; lia].
  - exact Hrun.
Defined.

Lemma write_pha_warnings_witness :
  let catalog := [ExampleCatalog.orphan; ExampleCatalog.event_with [];
                  ExampleCatalog.event0] in
  ∃ data issued r s,
    ExampleCatalog.write catalog None = Ret (data, issued, r, s)
    ∧ issued = ["Skip writing events with missing origin";
                "Missing magnitude will be set to 0.0"]
    ∧ issued
      = concat (warnings_for Example.preferred_origin
                  Example.preferred_magnitude <$> catalog).
Proof.
  intros catalog.
  assert (∃ data r s,
            ExampleCatalog.write catalog None
            = Ret (data, ["Skip writing events with missing origin";
                          "Missing magnitude will be set to 0.0"], r, s))
    as (data & r & s & Hrun)
    by (eexists _, _, _; vm_compute; reflexivity).
  eexists data, _, r, s. split; [exact Hrun|]. split; [reflexivity|].
  exact (write_pha_warnings Example.preferred_origin
           Example.preferred_magnitude catalog None data _ r s Hrun).
Defined.

(** ** More about the reader *)

Lemma lstrip_all_space (s : string) :
  Py.all_chars Py.str_isspace s = true → Py.lstrip Py.str_isspace s = "".
Proof.
  induction s as [|c r IH]; simpl; [done|].
  destruct (Py.str_isspace c); [|done]. exact IH.
Qed.

Section ReaderMore.
Context `{Runtime}.

Ltac need_step Hrun :=
  match type of Hrun with
  | context [need _ ?o] =>
      let E := fresh "E" in
      destruct o eqn:E; simpl in Hrun; [|discriminate Hrun]
  end.

(** One pick line that is read. *)
Lemma read_pick_line_inv (seed_map : Dict.t string) (id_default : string)
    (ph2comp : Dict.t string) (t : UTCDateTime) (line : string) (n n' : nat)
    (p : Pick) (a : Arrival) :
  read_pick_line seed_map id_default ph2comp t line n = Ret (p, a, n') →
  ∃ sta reltime weight phase seed rel tp w,
    Py.split Py.str_isspace line = [sta; reltime; weight; phase]
    ∧ str_format2 (Dict.get_default seed_map sta id_default) sta
        (Dict.get_default ph2comp phase "") = Ret seed
    ∧ py_float reltime = Some rel ∧ utc_add t rel = Ret tp
    ∧ py_float weight = Some w
    ∧ p = {| pick_resource_id := generated_id n;
             waveform_id := waveform_of_seed_string seed;
             phase_hint := Some phase;
             pick_time := tp |}
    ∧ a = {| phase := phase; pick_id := generated_id n;
             time_weight := Some w |}
    ∧ n' = S n.
Proof.
  unfold read_pick_line.
  destruct (Py.split Py.str_isspace line)
    as [|sta [|reltime [|weight [|phase [|]]]]]; try done.
  destruct (str_format2 _ _ _) as [seed| |] eqn:Hseed; try done. simpl.
  destruct (py_float reltime) as [rel|] eqn:Hrel; try done. simpl.
  destruct (utc_add t rel) as [tp| |] eqn:Htp; try done. simpl.
  destruct (py_float weight) as [w|] eqn:Hw; try done. simpl.
  intros [= <- <- <-].
  by exists sta, reltime, weight, phase, seed, rel, tp, w.
Qed.

Lemma read_pick_lines_inv (seed_map : Dict.t string) (id_default : string)
    (ph2comp : Dict.t string) (t : UTCDateTime) (lines : list string) :
  ∀ (n n' : nat) (ps : list Pick) (arrs : list Arrival),
    read_pick_lines seed_map id_default ph2comp t lines n
    = Ret (ps, arrs, n') →
    n' = n + length lines
    ∧ length ps = length lines ∧ length arrs = length lines
    ∧ ∀ i line, lines !! i = Some line →
        ∃ p a,
          ps !! i = Some p ∧ arrs !! i = Some a
          ∧ read_pick_line seed_map id_default ph2comp t line (n + i)
            = Ret (p, a, S (n + i)).
Proof.
  induction lines as [|line rest IH]; intros n n' ps arrs Hrun.
  - simpl in Hrun. injection Hrun as <- <- <-.
    repeat split; try done; simpl; lia.
  - simpl in Hrun.
    destruct (read_pick_line _ _ _ _ line n) as [[[p a] n1]| |] eqn:Hline;
      try done.
    simpl in Hrun.
    destruct (read_pick_lines _ _ _ _ rest n1) as [[[ps1 arrs1] n2]| |]
      eqn:Hrest; try done.
    simpl in Hrun. injection Hrun as <- <- <-.
    assert (n1 = S n) as ->.
    { by destruct (read_pick_line_inv _ _ _ _ _ _ _ _ _ Hline)
        as (? & ? & ? & ? & ? & ? & ? & ? & _ & _ & _ & _ & _ & _ & _ & ?). }
    destruct (IH _ _ _ _ Hrest) as (Hn & Hps & Harrs & Hall).
    split; [simpl; lia|]. split; [simpl; lia|]. split; [simpl; lia|].
    intros [|i] l Hl; simpl in Hl.
    + injection Hl as <-. exists p, a. by rewrite Nat.add_0_r.
    + destruct (Hall i l Hl) as (p' & a' & Hp' & Ha' & Hrun').
      exists p', a'. simpl. split; [done|]. split; [done|].
      by replace (n + S i) with (S n + i) by lia.
Qed.

(** What a block that is read was made of. *)
Lemma block2event_inv (h : heap) (block : string)
    (seed_map : Dict.t string) (id_default : string)
    (ph2comp : Dict.t string) (eventid_map : option nat) (n n' : nat)
    (ev : Event) :
  _block2event h block seed_map id_default ph2comp eventid_map n
  = Ret (ev, n') →
  ∃ header yr mo dy hr mn sc la lo dp mg eh ez rms id_ id'
    zyr zmo zdy zhr zmn fsc t fla flo fdp o q,
    Py.splitlines (Py.strip Py.str_isspace block)
    = header :: pick_lines block
    ∧ Py.split Py.str_isspace header
      = [yr; mo; dy; hr; mn; sc; la; lo; dp; mg; eh; ez; rms; id_]
    ∧ match eventid_map with
      | None => id' = id_
      | Some l => ∃ d, h !! l = Some d ∧ id' = remap d id_
      end
    ∧ py_int yr = Some zyr ∧ py_int mo = Some zmo ∧ py_int dy = Some zdy
    ∧ py_int hr = Some zhr ∧ py_int mn = Some zmn ∧ py_float sc = Some fsc
    ∧ utc_lenient zyr zmo zdy zhr zmn fsc = Some t
    ∧ py_float la = Some fla ∧ py_float lo = Some flo
    ∧ py_float dp = Some fdp
    ∧ origins ev = [o]
    ∧ read_pick_lines seed_map id_default ph2comp t (pick_lines block) n
      = Ret (picks ev, arrivals o, n')
    ∧ resource_id ev = "smi:local/event/" ++ id'
    ∧ origin_resource_id o = "smi:local/origin/" ++ id'
    ∧ preferred_origin_id ev = Some ("smi:local/origin/" ++ id')
    ∧ (∀ m, m ∈ magnitudes ev →
            magnitude_resource_id m = "smi:local/magnitude/" ++ id')
    ∧ latitude o = fla ∧ longitude o = flo
    ∧ depth o = Some (1000 * fdp)%float ∧ time o = t
    ∧ quality o = Some q
    ∧ associated_phase_count q = length (picks ev).
Proof.
  unfold _block2event, pick_lines.
  destruct (Py.splitlines _) as [|header lines]; [done|].
  destruct (Py.split Py.str_isspace header)
    as [|yr [|mo [|dy [|hr [|mn [|sc [|la [|lo [|dp [|mg [|eh [|ez [|rms
        [|id_ [|]]]]]]]]]]]]]]] eqn:Htok; try done.
  intros Hrun.
  assert (∃ id', match eventid_map with
                 | None => id' = id_
                 | Some l => ∃ d, h !! l = Some d ∧ id' = remap d id_
                 end
                 ∧ match eventid_map with
                   | Some l =>
                       d ← need TypeError (h !! l);
                       Ret (match Dict.get d id_ with
                            | Some mapped => mapped
                            | None => id_
                            end)
                   | None => Ret id_
                   end = Ret id') as (id' & Hid & Hidrun).
  { destruct eventid_map as [l|]; [|by exists id_].
    destruct (h !! l) as [d|] eqn:Hl; [|done].
    exists (remap d id_). split; [by exists d|done]. }
  rewrite Hidrun in Hrun. simpl in Hrun.
  do 5 need_step Hrun.
  need_step Hrun. need_step Hrun.
  destruct (py_float eh) as [feh|] eqn:Eeh; simpl in Hrun; [|done].
  destruct (py_float la) as [fla|] eqn:Ela.
  2:{ destruct (PrimFloat.eqb feh 0); simpl in Hrun;
      destruct (py_float ez); simpl in Hrun; try done;
      destruct (py_float rms); simpl in Hrun; try done;
      destruct (read_pick_lines _ _ _ _ _ _) as [[[? ?] ?]| |];
      simpl in Hrun; done. }
  destruct (PrimFloat.eqb feh 0) eqn:Ezero; simpl in Hrun.
  all: destruct (py_float ez) as [fez|] eqn:Eez; simpl in Hrun; [|done].
  all: destruct (py_float rms) as [frms|] eqn:Erms; simpl in Hrun; [|done].
  all: destruct (read_pick_lines _ _ _ _ _ _) as [[[ps arrs] n1]| |]
         eqn:Hlines; simpl in Hrun; try done.
  all: destruct (py_float lo) as [flo|] eqn:Elo; simpl in Hrun; [|done].
  all: destruct (py_float dp) as [fdp|] eqn:Edp; simpl in Hrun; [|done].
  all: destruct (String.eqb (Py.lower mg) "nan") eqn:Enan; simpl in Hrun.
  all: try (unfold new_Magnitude in Hrun;
            destruct (py_float mg) as [fmg|] eqn:Emg; simpl in Hrun;
            [|done]).
  all: injection Hrun as <- <-; simpl.
  all: eexists header, yr, mo, dy, hr, mn, sc, la, lo, dp, mg, eh, ez, rms,
         id_, id', _, _, _, _, _, _, _, fla, flo, fdp, _, _.
  all: repeat (split; [done || reflexivity || eassumption|]); simpl.
  all: repeat (split; [done || reflexivity || eassumption|]).
  all: split; [|repeat split; reflexivity].
  all: intros m Hm.
  all: try (by apply not_elem_of_nil in Hm).
  all: by apply list_elem_of_singleton in Hm as ->.
Qed.

Lemma block2event_counter (h : heap) (block : string)
    (seed_map : Dict.t string) (id_default : string)
    (ph2comp : Dict.t string) (eventid_map : option nat) (n n' : nat)
    (ev : Event) :
  _block2event h block seed_map id_default ph2comp eventid_map n
  = Ret (ev, n') →
  n' = n + length (pick_lines block)
  ∧ length (picks ev) = length (pick_lines block).
Proof.
  intros Hrun.
  destruct (block2event_inv _ _ _ _ _ _ _ _ _ Hrun)
    as (header & yr & mo & dy & hr & mn & sc & la & lo & dp & mg & eh & ez
        & rms & id_ & id' & zyr & zmo & zdy & zhr & zmn & fsc & t & fla
        & flo & fdp & o & q & _ & _ & _ & _ & _ & _ & _ & _ & _ & _ & _ & _
        & _ & _ & Hlines & _).
  by destruct (read_pick_lines_inv _ _ _ _ _ _ _ _ _ Hlines)
    as (? & ? & _).
Qed.


(** X17. A block that is read gives one pick and one arrival for each of
    its lines after the first, in order, and the phase count of the origin
    is this number; the picks carry consecutive generated identifiers, and
    the i-th arrival refers to the i-th pick and has its phase. *)
Theorem block2event_picks (h : heap) (block : string)
    (seed_map : Dict.t string) (id_default : string)
    (ph2comp : Dict.t string) (eventid_map : option nat) (n n' : nat)
    (ev : Event) :
  _block2event h block seed_map id_default ph2comp eventid_map n
  = Ret (ev, n') →
  ∃ o q,
    origins ev = [o] ∧ quality o = Some q
    ∧ length (picks ev) = length (pick_lines block)
    ∧ length (arrivals o) = length (pick_lines block)
    ∧ associated_phase_count q = length (pick_lines block)
    ∧ n' = n + length (pick_lines block)
    ∧ ∀ i p, picks ev !! i = Some p →
        pick_resource_id p = generated_id (n + i)
        ∧ ∃ a, arrivals o !! i = Some a
               ∧ pick_id a = pick_resource_id p
               ∧ phase_hint p = Some (phase a).
Proof.
  intros Hrun.
  destruct (block2event_inv _ _ _ _ _ _ _ _ _ Hrun)
    as (header & yr & mo & dy & hr & mn & sc & la & lo & dp & mg & eh & ez
        & rms & id_ & id' & zyr & zmo & zdy & zhr & zmn & fsc & t & fla
        & flo & fdp & o & q & _ & _ & _ & _ & _ & _ & _ & _ & _ & _ & _ & _
        & _ & Ho & Hlines & _ & _ & _ & _ & _ & _ & _ & _ & Hq & Hcount).
  destruct (read_pick_lines_inv _ _ _ _ _ _ _ _ _ Hlines)
    as (Hn & Hps & Harrs & Hall).
  exists o, q. split; [done|]. split; [done|]. split; [done|].
  split; [done|]. split; [by rewrite Hcount|]. split; [done|].
  intros i p Hp.
  destruct (lookup_lt_is_Some_2 (pick_lines block) i) as [line Hline].
  { rewrite <-Hps. by eapply lookup_lt_Some. }
  destruct (Hall i line Hline) as (p' & a & Hp' & Ha & Hread).
  rewrite Hp in Hp'. injection Hp' as <-.
  destruct (read_pick_line_inv _ _ _ _ _ _ _ _ _ Hread)
    as (sta & reltime & weight & ph & seed & rel & tp & w & _ & _ & _ & _
        & _ & -> & -> & _).
  simpl. split; [done|]. eexists. split; [exact Ha|]. done.
Qed.

(** X18. In a block that is read, line i after the first has four
    tokens, station, relative time, weight and phase: pick i has the phase
    as hint, the time of the origin plus the relative time, and the
    waveform id made from the template of the station (its entry in the
    seed map, else the default) filled with the station and the component
    of the phase ([ph2comp], else empty); arrival i has the phase and the
    weight. *)
Theorem block2event_pick_line (h : heap) (block : string)
    (seed_map : Dict.t string) (id_default : string)
    (ph2comp : Dict.t string) (eventid_map : option nat) (n n' : nat)
    (ev : Event) (i : nat) (line : string) :
  _block2event h block seed_map id_default ph2comp eventid_map n
  = Ret (ev, n') →
  pick_lines block !! i = Some line →
  ∃ o sta reltime weight ph seed rel w p a,
    origins ev = [o]
    ∧ Py.split Py.str_isspace line = [sta; reltime; weight; ph]
    ∧ str_format2 (Dict.get_default seed_map sta id_default) sta
        (Dict.get_default ph2comp ph "") = Ret seed
    ∧ py_float reltime = Some rel ∧ py_float weight = Some w
    ∧ picks ev !! i = Some p ∧ arrivals o !! i = Some a
    ∧ waveform_id p = waveform_of_seed_string seed
    ∧ phase_hint p = Some ph
    ∧ utc_add (time o) rel = Ret (pick_time p)
    ∧ phase a = ph ∧ time_weight a = Some w.
Proof.
  intros Hrun Hline.
  destruct (block2event_inv _ _ _ _ _ _ _ _ _ Hrun)
    as (header & yr & mo & dy & hr & mn & sc & la & lo & dp & mg & eh & ez
        & rms & id_ & id' & zyr & zmo & zdy & zhr & zmn & fsc & t & fla
        & flo & fdp & o & q & _ & _ & _ & _ & _ & _ & _ & _ & _ & _ & _ & _
        & _ & Ho & Hlines & _ & _ & _ & _ & _ & _ & _ & Ht & _ & _).
  destruct (read_pick_lines_inv _ _ _ _ _ _ _ _ _ Hlines)
    as (_ & _ & _ & Hall).
  destruct (Hall i line Hline) as (p & a & Hp & Ha & Hread).
  destruct (read_pick_line_inv _ _ _ _ _ _ _ _ _ Hread)
    as (sta & reltime & weight & ph & seed & rel & tp & w & Htok & Hseed
        & Hrel & Htp & Hw & -> & -> & _).
  exists o, sta, reltime, weight, ph, seed, rel, w. eexists _, _.
  rewrite Ht. repeat (split; [done|]). done.
Qed.

(** X19. A block that is read has a first line of 14 tokens, the last of
    which is the event id, replaced by its value in the [eventid_map] handed
    to [_block2event] when it is a key there.  The event, its origin and its
    magnitude are named smi:local/event/, smi:local/origin/ and
    smi:local/magnitude/ followed by that id, the origin is the preferred
    one, and the writer's source id of the event is the last component of
    that id. *)
Theorem block2event_identifiers (h : heap) (block : string)
    (seed_map : Dict.t string) (id_default : string)
    (ph2comp : Dict.t string) (eventid_map : option nat) (n n' : nat)
    (ev : Event) :
  _block2event h block seed_map id_default ph2comp eventid_map n
  = Ret (ev, n') →
  ∃ id_ id' o,
    length (header_tokens block) = 14
    ∧ list.last (header_tokens block) = Some id_
    ∧ match eventid_map with
      | None => id' = id_
      | Some l => ∃ d, h !! l = Some d ∧ id' = remap d id_
      end
    ∧ resource_id ev = "smi:local/event/" ++ id'
    ∧ origins ev = [o]
    ∧ origin_resource_id o = "smi:local/origin/" ++ id'
    ∧ preferred_origin_id ev = Some (origin_resource_id o)
    ∧ (∀ m, m ∈ magnitudes ev →
            magnitude_resource_id m = "smi:local/magnitude/" ++ id')
    ∧ last_component (resource_id ev) = last_component id'.
Proof.
  intros Hrun.
  destruct (block2event_inv _ _ _ _ _ _ _ _ _ Hrun)
    as (header & yr & mo & dy & hr & mn & sc & la & lo & dp & mg & eh & ez
        & rms & id_ & id' & zyr & zmo & zdy & zhr & zmn & fsc & t & fla
        & flo & fdp & o & q & Hsplit & Htok & Hid & _ & _ & _ & _ & _ & _
        & _ & _ & _ & _ & Ho & _ & Hev & Hor & Hpref & Hmag & _).
  exists id_, id', o. unfold header_tokens. rewrite Hsplit, Htok.
  split; [done|]. split; [done|]. split; [done|]. split; [done|].
  split; [done|]. split; [done|]. split; [by rewrite Hor|].
  split; [done|]. rewrite Hev.
  exact (last_component_after "smi:local/event" id').
Qed.

(** X20. For a block that is read, the time of the origin is what the
    lenient constructor makes of the first six fields, its latitude and
    longitude are fields 7 and 8, and its depth is 1000 times field 9. *)
Theorem block2event_origin (h : heap) (block : string)
    (seed_map : Dict.t string) (id_default : string)
    (ph2comp : Dict.t string) (eventid_map : option nat) (n n' : nat)
    (ev : Event) (yr mo dy hr mn sc la lo dp mg eh ez rms id_ : string) :
  header_tokens block
  = [yr; mo; dy; hr; mn; sc; la; lo; dp; mg; eh; ez; rms; id_] →
  _block2event h block seed_map id_default ph2comp eventid_map n
  = Ret (ev, n') →
  ∃ o zyr zmo zdy zhr zmn fsc fla flo fdp,
    origins ev = [o]
    ∧ py_int yr = Some zyr ∧ py_int mo = Some zmo ∧ py_int dy = Some zdy
    ∧ py_int hr = Some zhr ∧ py_int mn = Some zmn ∧ py_float sc = Some fsc
    ∧ utc_lenient zyr zmo zdy zhr zmn fsc = Some (time o)
    ∧ py_float la = Some fla ∧ latitude o = fla
    ∧ py_float lo = Some flo ∧ longitude o = flo
    ∧ py_float dp = Some fdp ∧ depth o = Some (1000 * fdp)%float.
Proof.
  intros Hheader Hrun.
  destruct (block2event_inv _ _ _ _ _ _ _ _ _ Hrun)
    as (header & yr' & mo' & dy' & hr' & mn' & sc' & la' & lo' & dp' & mg'
        & eh' & ez' & rms' & id_' & id' & zyr & zmo & zdy & zhr & zmn & fsc
        & t & fla & flo & fdp & o & q & Hsplit & Htok & _ & Hyr & Hmo & Hdy
        & Hhr & Hmn & Hsc & Ht & Hla & Hlo & Hdp & Ho & _ & _ & _ & _ & _
        & Hlat & Hlon & Hdepth & Htime & _).
  unfold header_tokens in Hheader. rewrite Hsplit, Htok in Hheader.
  simplify_eq.
  exists o, zyr, zmo, zdy, zhr, zmn, fsc, (latitude o), (longitude o), fdp.
  repeat (split; [done|]). done.
Qed.

(** X21. A block of white space only makes [_block2event] raise
    [IndexError], and a block whose first line does not have 14 tokens
    makes it raise [ValueError], whatever the other arguments. *)
Theorem block2event_rejects (h : heap) (block : string)
    (seed_map : Dict.t string) (id_default : string)
    (ph2comp : Dict.t string) (eventid_map : option nat) (n : nat) :
  (Py.all_chars Py.str_isspace block = true →
   _block2event h block seed_map id_default ph2comp eventid_map n
   = Raise IndexError)
  ∧ (length (header_tokens block) ≠ 0 →
     length (header_tokens block) ≠ 14 →
     _block2event h block seed_map id_default ph2comp eventid_map n
     = Raise ValueError).
Proof.
  split.
  - intros Hblank. unfold _block2event, Py.strip.
    by rewrite (lstrip_all_space block Hblank).
  - unfold header_tokens, _block2event.
    destruct (Py.splitlines _) as [|header lines]; [done|].
    destruct (Py.split Py.str_isspace header)
      as [|yr [|mo [|dy [|hr [|mn [|sc [|la [|lo [|dp [|mg [|eh [|ez [|rms
          [|id_ [|]]]]]]]]]]]]]]]; done.
Qed.

End ReaderMore.

Lemma block2event_picks_witness :
  let block := Example.block "40.0" "2.5" "1.0" "0.5" "0.1" "12345" in
  let ev := ExampleCatalog.event0 in
  ∃ o q,
    origins ev = [o] ∧ quality o = Some q
    ∧ length (picks ev) = length (pick_lines block)
    ∧ length (arrivals o) = length (pick_lines block)
    ∧ associated_phase_count q = length (pick_lines block)
    ∧ 1 = 0 + length (pick_lines block)
    ∧ ∀ i p, picks ev !! i = Some p →
        pick_resource_id p = generated_id (0 + i)
        ∧ ∃ a, arrivals o !! i = Some a
               ∧ pick_id a = pick_resource_id p
               ∧ phase_hint p = Some (phase a).
Proof.
  intros block ev.
  apply (block2event_picks (H := Example.runtime) ∅ block [] ".{}..{}"
           Example.ph2comp None 0 1 ev).
  vm_compute. reflexivity.
Defined.

Lemma block2event_pick_line_witness :
  let block := Example.block "40.0" "2.5" "1.0" "0.5" "0.1" "12345" in
  let ev := ExampleCatalog.event0 in
  ∃ o sta reltime weight ph seed rel w p a,
    origins ev = [o]
    ∧ Py.split Py.str_isspace "STA1  1.2345  1.0  P"
      = [sta; reltime; weight; ph]
    ∧ str_format2 (Dict.get_default [] sta ".{}..{}") sta
        (Dict.get_default Example.ph2comp ph "") = Ret seed
    ∧ py_float reltime = Some rel ∧ py_float weight = Some w
    ∧ picks ev !! 0 = Some p ∧ arrivals o !! 0 = Some a
    ∧ waveform_id p = waveform_of_seed_string seed
    ∧ phase_hint p = Some ph
    ∧ utc_add (time o) rel = Ret (pick_time p)
    ∧ phase a = ph ∧ time_weight a = Some w.
Proof.
  intros block ev.
  apply (block2event_pick_line (H := Example.runtime) ∅ block [] ".{}..{}"
           Example.ph2comp None 0 1 ev 0 "STA1  1.2345  1.0  P");
    vm_compute; reflexivity.
Defined.

Lemma block2event_identifiers_witness :
  let block := Example.block "40.0" "2.5" "1.0" "0.5" "0.1" "12345" in
  let h : heap := {[ 7 := [("12345", "evt-a")] ]} in
  ∃ ev id_ id' o,
    _block2event h block [] ".{}..{}" Example.ph2comp (Some 7) 0
    = Ret (ev, 1)
    ∧ resource_id ev = "smi:local/event/evt-a"
    ∧ length (header_tokens block) = 14
    ∧ list.last (header_tokens block) = Some id_
    ∧ (∃ d, h !! 7 = Some d ∧ id' = remap d id_)
    ∧ resource_id ev = "smi:local/event/" ++ id'
    ∧ origins ev = [o]
    ∧ origin_resource_id o = "smi:local/origin/" ++ id'
    ∧ preferred_origin_id ev = Some (origin_resource_id o)
    ∧ (∀ m, m ∈ magnitudes ev →
            magnitude_resource_id m = "smi:local/magnitude/" ++ id')
    ∧ last_component (resource_id ev) = last_component id'.
Proof.
  intros block h.
  assert (∃ ev, _block2event h block [] ".{}..{}" Example.ph2comp (Some 7) 0
                = Ret (ev, 1)
                ∧ resource_id ev = "smi:local/event/evt-a")
    as (ev & Hrun & Hid)
    by (eexists; split; vm_compute; reflexivity).
  destruct (block2event_identifiers (H := Example.runtime) h block []
              ".{}..{}" Example.ph2comp (Some 7) 0 1 ev Hrun)
    as (id_ & id' & o & Hrest).
  exists ev, id_, id', o. split; [exact Hrun|]. split; [exact Hid|].
  exact Hrest.
Defined.

Lemma block2event_origin_witness :
  let ev := ExampleCatalog.event0 in
  ∃ o zyr zmo zdy zhr zmn fsc fla flo fdp,
    origins ev = [o]
    ∧ py_int "2001" = Some zyr ∧ py_int "1" = Some zmo
    ∧ py_int "15" = Some zdy ∧ py_int "8" = Some zhr
    ∧ py_int "5" = Some zmn ∧ py_float "0.00" = Some fsc
    ∧ utc_lenient zyr zmo zdy zhr zmn fsc = Some (time o)
    ∧ py_float "40.0" = Some fla ∧ latitude o = fla
    ∧ py_float "-120.0" = Some flo ∧ longitude o = flo
    ∧ py_float "5.0" = Some fdp ∧ depth o = Some (1000 * fdp)%float.
Proof.
  intros ev.
  apply (block2event_origin (H := Example.runtime) ∅
           (Example.block "40.0" "2.5" "1.0" "0.5" "0.1" "12345")
           [] ".{}..{}" Example.ph2comp None 0 1 ev
           "2001" "1" "15" "8" "5" "0.00" "40.0" "-120.0" "5.0" "2.5"
           "1.0" "0.5" "0.1" "12345");
    vm_compute; reflexivity.
Defined.

Example block2event_rejects_examples :
  _block2event ∅ "  " [] ".{}..{}" Example.ph2comp None 0 = Raise IndexError
  ∧ _block2event ∅ " 2001 1 15 8 5 0.00 40.0" [] ".{}..{}" Example.ph2comp
      None 0 = Raise ValueError
  ∧ Example.read "40.0" "2.5 extra" "1.0" "0.5" "0.1" "12345"
    = Raise ValueError.
Proof. vm_compute. auto. Qed.

(** ** Reading a file *)

Lemma split_on_go_length (sep : ascii) (s : string) :
  ∀ tok, length (Py.split_on_go sep tok s) = S (count_char sep s).
Proof.
  induction s as [|c r IH]; intros tok; simpl; [done|].
  destruct (Ascii.eqb c sep); simpl; by rewrite IH.
Qed.

Lemma blocks_of_length (text : string) :
  length (blocks_of text) = count_char "#" text.
Proof.
  unfold blocks_of, Py.split_on.
  pose proof (split_on_go_length "#" text []) as Hlen.
  destruct (Py.split_on_go "#" [] text); simpl in *; lia.
Qed.

Lemma pick_count_snoc (blocks : list string) (i : nat) (block : string) :
  blocks !! i = Some block →
  pick_count (take (S i) blocks)
  = pick_count (take i blocks) + length (pick_lines block).
Proof.
  intros Hi. rewrite (take_S_r _ _ _ Hi). unfold pick_count.
  rewrite sum_list_with_app. simpl. lia.
Qed.

Lemma split_on_go_preamble (sep : ascii) (pre rest : string) :
  ∀ tok,
    Py.contains sep pre = false →
    Py.split_on_go sep tok (pre ++ String sep rest)
    = (string_of_list_ascii (rev tok) ++ pre) :: Py.split_on_go sep [] rest.
Proof.
  induction pre as [|c pre IH]; intros tok; simpl.
  - intros _. rewrite Ascii.eqb_refl. by rewrite string_app_nil_r.
  - destruct (Ascii.eqb c sep) eqn:Hc; [done|]. simpl. intros Hpre.
    rewrite IH by done. simpl.
    by rewrite string_of_list_ascii_app, string_app_assoc.
Qed.

Lemma blocks_of_preamble (pre rest : string) :
  Py.contains "#" pre = false →
  blocks_of (pre ++ String "#" rest) = blocks_of (String "#" rest).
Proof.
  intros Hpre. unfold blocks_of, Py.split_on.
  by rewrite (split_on_go_preamble "#" pre rest [] Hpre).
Qed.

Lemma blocks_of_none (text : string) :
  Py.contains "#" text = false → blocks_of text = [].
Proof.
  intros Hnone. unfold blocks_of, Py.split_on.
  by rewrite split_on_go_none.
Qed.

Section ReadPha.
Context `{Runtime}.

(** The events of a list of blocks that is read: one per block, in order,
    each made by [_block2event] with the identifier count the blocks
    before it left. *)
Lemma read_blocks_inv (h : heap) (seed_map : Dict.t string)
    (id_default : string) (ph2comp : Dict.t string)
    (eventid_map : option nat) (blocks : list string) :
  ∀ (n n' : nat) (events : list Event),
    read_blocks h blocks seed_map id_default ph2comp eventid_map n
    = Ret (events, n') →
    length events = length blocks
    ∧ n' = n + pick_count blocks
    ∧ ∀ i block, blocks !! i = Some block →
        ∃ ev, events !! i = Some ev
              ∧ _block2event h block seed_map id_default ph2comp
                  eventid_map (n + pick_count (take i blocks))
                = Ret (ev, n + pick_count (take (S i) blocks)).
Proof.
  induction blocks as [|block rest IH]; intros n n' events Hrun.
  - simpl in Hrun. injection Hrun as <- <-.
    split; [done|]. split; [unfold pick_count; simpl; lia|]. done.
  - simpl in Hrun.
    destruct (_block2event h block _ _ _ _ n) as [[ev n1]| |] eqn:Hblock;
      try done.
    simpl in Hrun.
    destruct (read_blocks h rest _ _ _ _ n1) as [[evs n2]| |] eqn:Hrest;
      try done.
    simpl in Hrun. injection Hrun as <- <-.
    destruct (block2event_counter _ _ _ _ _ _ _ _ _ Hblock) as [Hn1 _].
    destruct (IH _ _ _ Hrest) as (Hlen & Hn2 & Hall).
    split; [simpl; lia|]. split; [unfold pick_count in *; simpl; lia|].
    intros [|i] b Hb; simpl in Hb.
    + injection Hb as <-. exists ev. split; [done|].
      unfold pick_count. simpl.
      by rewrite !Nat.add_0_r, <-Hn1.
    + destruct (Hall i b Hb) as (ev' & Hev' & Hrun').
      exists ev'. split; [done|].
      unfold pick_count in *. simpl.
      by rewrite !Nat.add_assoc, <-Hn1.
Qed.


Lemma read_blocks_pick_total (h : heap) (seed_map : Dict.t string)
    (id_default : string) (ph2comp : Dict.t string)
    (eventid_map : option nat) (blocks : list string) :
  ∀ (n n' : nat) (events : list Event),
    read_blocks h blocks seed_map id_default ph2comp eventid_map n
    = Ret (events, n') →
    n' = n + sum_list_with (λ ev, length (picks ev)) events.
Proof.
  induction blocks as [|block rest IH]; intros n n' events Hrun.
  - simpl in Hrun. injection Hrun as <- <-. simpl. lia.
  - simpl in Hrun.
    destruct (_block2event h block _ _ _ _ n) as [[ev n1]| |] eqn:Hblock;
      try done.
    simpl in Hrun.
    destruct (read_blocks h rest _ _ _ _ n1) as [[evs n2]| |] eqn:Hrest;
      try done.
    simpl in Hrun. injection Hrun as <- <-.
    destruct (block2event_counter _ _ _ _ _ _ _ _ _ Hblock) as [Hn1 Hlen].
    apply IH in Hrest. simpl. lia.
Qed.

(** What [_read_pha] hands to [_block2event]. *)
Lemma read_pha_inv (fs : FileSystem) (h : heap) (filename : string)
    (inventory : option Inventory) (id_map : option (Dict.t string))
    (id_default : string) (ph2comp : Dict.t string)
    (eventid_map : option nat) (encoding : string) (n n' : nat)
    (catalog : list Event) :
  (_read_pha fs h filename inventory id_map id_default ph2comp eventid_map
     encoding n).2 = Ret (catalog, n') →
  ∃ text h' em',
    read_text fs filename encoding = Some text
    ∧ match eventid_map with
      | None => h' = h ∧ em' = None
      | Some l => ∃ d l', h !! l = Some d ∧ em' = Some l'
                          ∧ h' !! l' = Some (Dict.inverted d)
      end
    ∧ read_blocks h' (blocks_of text) (_seed_id_map inventory id_map)
        id_default ph2comp em' n = Ret (catalog, n').
Proof.
  unfold _read_pha, blocks_of.
  destruct eventid_map as [l|].
  - destruct (h !! l) as [d|] eqn:Hl; [|done]. simpl.
    destruct (read_text fs filename encoding) as [text|]; [|done]. simpl.
    intros Hrun. exists text. eexists _, _. split; [done|].
    split; [|exact Hrun].
    exists d. eexists. split; [done|]. split; [done|].
    apply lookup_insert_eq.
  - simpl.
    destruct (read_text fs filename encoding) as [text|]; [|done]. simpl.
    intros Hrun. by exists text, h, None.
Qed.

(** The id of each event that is read, from the last token of the first
    line of its block. *)
Lemma read_pha_ids (fs : FileSystem) (h : heap) (filename : string)
    (inventory : option Inventory) (id_map : option (Dict.t string))
    (id_default : string) (ph2comp : Dict.t string)
    (eventid_map : option nat) (encoding : string) (n n' : nat)
    (catalog : list Event) (text : string) :
  read_text fs filename encoding = Some text →
  (_read_pha fs h filename inventory id_map id_default ph2comp eventid_map
     encoding n).2 = Ret (catalog, n') →
  length catalog = length (blocks_of text)
  ∧ ∀ i block, blocks_of text !! i = Some block →
      ∃ ev id_,
        catalog !! i = Some ev
        ∧ list.last (header_tokens block) = Some id_
        ∧ resource_id ev
          = "smi:local/event/"
            ++ match eventid_map with
               | None => id_
               | Some l =>
                   match h !! l with
                   | Some d => remap (Dict.inverted d) id_
                   | None => id_
                   end
               end.
Proof.
  intros Htext Hrun.
  destruct (read_pha_inv _ _ _ _ _ _ _ _ _ _ _ _ Hrun)
    as (text' & h' & em' & Htext' & Hmap & Hblocks).
  rewrite Htext in Htext'. injection Htext' as <-.
  destruct (read_blocks_inv _ _ _ _ _ _ _ _ _ Hblocks)
    as (Hlen & _ & Hall).
  split; [done|]. intros i block Hblock.
  destruct (Hall i block Hblock) as (ev & Hev & Hone).
  destruct (block2event_inv _ _ _ _ _ _ _ _ _ Hone)
    as (header & yr & mo & dy & hr & mn & sc & la & lo & dp & mg & eh & ez
        & rms & id_ & id' & zyr & zmo & zdy & zhr & zmn & fsc & t & fla
        & flo & fdp & o & q & Hsplit & Htok & Hid & _ & _ & _ & _ & _ & _
        & _ & _ & _ & _ & _ & _ & Hres & _).
  exists ev, id_. split; [done|]. unfold header_tokens.
  rewrite Hsplit, Htok. split; [done|]. rewrite Hres. f_equal.
  destruct eventid_map as [l|].
  - destruct Hmap as (d & l' & Hl & -> & Hl').
    destruct Hid as (d' & Hd' & ->). rewrite Hl.
    rewrite Hl' in Hd'. by injection Hd' as <-.
  - destruct Hmap as [-> ->]. done.
Qed.

(** X22. A file that is read gives as many events as its text has [#]
    characters, and as many generated pick identifiers as the events have
    picks, which is the number of lines after the first in its blocks. *)
Theorem read_pha_counts (fs : FileSystem) (h : heap) (filename : string)
    (inventory : option Inventory) (id_map : option (Dict.t string))
    (id_default : string) (ph2comp : Dict.t string)
    (eventid_map : option nat) (encoding : string) (n n' : nat)
    (catalog : list Event) :
  (_read_pha fs h filename inventory id_map id_default ph2comp eventid_map
     encoding n).2 = Ret (catalog, n') →
  ∃ text,
    read_text fs filename encoding = Some text
    ∧ length catalog = count_char "#" text
    ∧ n' = n + sum_list_with (λ ev, length (picks ev)) catalog
    ∧ n' = n + pick_count (blocks_of text).
Proof.
  intros Hrun.
  destruct (read_pha_inv _ _ _ _ _ _ _ _ _ _ _ _ Hrun)
    as (text & h' & em' & Htext & _ & Hblocks).
  exists text. split; [done|].
  destruct (read_blocks_inv _ _ _ _ _ _ _ _ _ Hblocks) as (Hlen & Hn & _).
  split; [by rewrite Hlen, blocks_of_length|].
  split; [|done]. by eapply read_blocks_pick_total.
Qed.

(** X23. The catalog of a file that is read lists, in the order of the
    text, the event [_block2event] makes of each block, the blocks being the
    parts of the text after each [#]; the blocks are read with the inverted
    table when an [eventid_map] is given and without table otherwise, and
    each starts from the identifier count the blocks before it left. *)
Theorem read_pha_blockwise (fs : FileSystem) (h : heap) (filename : string)
    (inventory : option Inventory) (id_map : option (Dict.t string))
    (id_default : string) (ph2comp : Dict.t string)
    (eventid_map : option nat) (encoding : string) (n n' : nat)
    (catalog : list Event) :
  (_read_pha fs h filename inventory id_map id_default ph2comp eventid_map
     encoding n).2 = Ret (catalog, n') →
  ∃ text h' em',
    read_text fs filename encoding = Some text
    ∧ match eventid_map with
      | None => h' = h ∧ em' = None
      | Some l => ∃ d l', h !! l = Some d ∧ em' = Some l'
                          ∧ h' !! l' = Some (Dict.inverted d)
      end
    ∧ ∀ i block, blocks_of text !! i = Some block →
        ∃ ev, catalog !! i = Some ev
              ∧ _block2event h' block (_seed_id_map inventory id_map)
                  id_default ph2comp em'
                  (n + pick_count (take i (blocks_of text)))
                = Ret (ev, n + pick_count (take (S i) (blocks_of text))).
Proof.
  intros Hrun.
  destruct (read_pha_inv _ _ _ _ _ _ _ _ _ _ _ _ Hrun)
    as (text & h' & em' & Htext & Hmap & Hblocks).
  exists text, h', em'. split; [done|]. split; [done|].
  by destruct (read_blocks_inv _ _ _ _ _ _ _ _ _ Hblocks) as (_ & _ & ?).
Qed.

(** X24. With an [eventid_map] from original ids to ids of the file, each
    event that is read is named after the original id the inverted table
    holds for the id of its block, and after the id of the block when the
    inverted table does not hold it. *)
Theorem read_pha_maps_ids_back (fs : FileSystem) (h : heap)
    (filename : string) (inventory : option Inventory)
    (id_map : option (Dict.t string)) (id_default : string)
    (ph2comp : Dict.t string) (l : nat) (d : Dict.t string)
    (encoding : string) (n n' : nat) (catalog : list Event)
    (text : string) :
  h !! l = Some d →
  read_text fs filename encoding = Some text →
  (_read_pha fs h filename inventory id_map id_default ph2comp (Some l)
     encoding n).2 = Ret (catalog, n') →
  ∀ i block, blocks_of text !! i = Some block →
    ∃ ev id_,
      catalog !! i = Some ev
      ∧ list.last (header_tokens block) = Some id_
      ∧ resource_id ev
        = "smi:local/event/"
          ++ match Dict.get (Dict.inverted d) id_ with
             | Some original => original
             | None => id_
             end.
Proof.
  intros Hl Htext Hrun i block Hblock.
  destruct (read_pha_ids _ _ _ _ _ _ _ _ _ _ _ _ _ Htext Hrun)
    as [_ Hall].
  destruct (Hall i block Hblock) as (ev & id_ & Hev & Hlast & Hres).
  rewrite Hl in Hres. by exists ev, id_.
Qed.

(** X25. A text without [#] reads as the empty catalog, and what precedes
    the first [#] of a text is ignored: the file reads as the same file
    without it. *)
Theorem read_pha_preamble (fs : FileSystem) (h : heap) (filename : string)
    (inventory : option Inventory) (id_map : option (Dict.t string))
    (id_default : string) (ph2comp : Dict.t string)
    (eventid_map : option nat) (encoding : string) (n : nat) :
  (∀ text, read_text fs filename encoding = Some text →
           Py.contains "#" text = false →
           (_read_pha fs h filename inventory id_map id_default ph2comp
              None encoding n).2 = Ret ([], n))
  ∧ (∀ fs' pre rest,
       Py.contains "#" pre = false →
       read_text fs filename encoding = Some (pre ++ String "#" rest) →
       read_text fs' filename encoding = Some (String "#" rest) →
       _read_pha fs h filename inventory id_map id_default ph2comp
         eventid_map encoding n
       = _read_pha fs' h filename inventory id_map id_default ph2comp
           eventid_map encoding n).
Proof.
  split.
  - intros text Htext Hnone. unfold _read_pha. simpl. rewrite Htext. simpl.
    fold (blocks_of text). by rewrite blocks_of_none.
  - intros fs' pre rest Hpre Htext Htext'. unfold _read_pha.
    rewrite Htext, Htext'.
    pose proof (blocks_of_preamble pre rest Hpre) as Hblocks.
    unfold blocks_of in Hblocks.
    destruct (match eventid_map with Some _ => _ | None => _ end)
      as [[h1 em1]| |]; [|done..].
    cbv [need mbind outcome_bind]. by rewrite Hblocks.
Qed.

End ReadPha.

Lemma read_pha_counts_witness :
  ∃ catalog n' text,
    (_read_pha Example.fs ∅ "scenario.pha" None None ".{}..{}"
       Example.ph2comp None "utf-8" 0).2 = Ret (catalog, n')
    ∧ read_text Example.fs "scenario.pha" "utf-8" = Some text
    ∧ length catalog = count_char "#" text
    ∧ n' = 0 + sum_list_with (λ ev, length (picks ev)) catalog
    ∧ n' = 0 + pick_count (blocks_of text).
Proof.
  assert (∃ catalog n',
            (_read_pha Example.fs ∅ "scenario.pha" None None ".{}..{}"
               Example.ph2comp None "utf-8" 0).2 = Ret (catalog, n'))
    as (catalog & n' & Hrun)
    by (eexists _, _; vm_compute; reflexivity).
  destruct (read_pha_counts (H := Example.runtime) Example.fs ∅
              "scenario.pha" None None ".{}..{}" Example.ph2comp None
              "utf-8" 0 n' catalog Hrun) as (text & Hrest).
  exists catalog, n', text. split; [exact Hrun|exact Hrest].
Defined.

Lemma read_pha_blockwise_witness :
  ∃ catalog n' text h' em',
    (_read_pha Example.fs ∅ "scenario.pha" None None ".{}..{}"
       Example.ph2comp None "utf-8" 0).2 = Ret (catalog, n')
    ∧ read_text Example.fs "scenario.pha" "utf-8" = Some text
    ∧ (h' = ∅ ∧ em' = None)
    ∧ ∀ i block, blocks_of text !! i = Some block →
        ∃ ev, catalog !! i = Some ev
              ∧ _block2event h' block (_seed_id_map None None)
                  ".{}..{}" Example.ph2comp em'
                  (0 + pick_count (take i (blocks_of text)))
                = Ret (ev, 0 + pick_count (take (S i) (blocks_of text))).
Proof.
  assert (∃ catalog n',
            (_read_pha Example.fs ∅ "scenario.pha" None None ".{}..{}"
               Example.ph2comp None "utf-8" 0).2 = Ret (catalog, n'))
    as (catalog & n' & Hrun)
    by (eexists _, _; vm_compute; reflexivity).
  destruct (read_pha_blockwise (H := Example.runtime) Example.fs ∅
              "scenario.pha" None None ".{}..{}" Example.ph2comp None
              "utf-8" 0 n' catalog Hrun) as (text & h' & em' & Hrest).
  exists catalog, n', text, h', em'. split; [exact Hrun|exact Hrest].
Defined.

Lemma read_pha_maps_ids_back_witness :
  let d : Dict.t string := [("evt-a", "12345")] in
  let h : heap := {[ 7 := d ]} in
  ∃ catalog n',
    (_read_pha Example.fs h "scenario.pha" None None ".{}..{}"
       Example.ph2comp (Some 7) "utf-8" 0).2 = Ret (catalog, n')
    ∧ ∀ i block, blocks_of Example.scenario !! i = Some block →
        ∃ ev id_,
          catalog !! i = Some ev
          ∧ list.last (header_tokens block) = Some id_
          ∧ resource_id ev
            = "smi:local/event/"
              ++ match Dict.get (Dict.inverted d) id_ with
                 | Some original => original
                 | None => id_
                 end.
Proof.
  intros d h.
  assert (∃ catalog n',
            (_read_pha Example.fs h "scenario.pha" None None ".{}..{}"
               Example.ph2comp (Some 7) "utf-8" 0).2 = Ret (catalog, n'))
    as (catalog & n' & Hrun)
    by (eexists _, _; vm_compute; reflexivity).
  exists catalog, n'. split; [exact Hrun|].
  apply (read_pha_maps_ids_back (H := Example.runtime) Example.fs h
           "scenario.pha" None None ".{}..{}" Example.ph2comp 7 d "utf-8"
           0 n' catalog Example.scenario); [reflexivity|reflexivity|exact Hrun].
Defined.

Example read_pha_preamble_examples :
  let fs' : FileSystem :=
    {| read_bytes := λ _, None;
       read_text := λ _ _, Some ("HypoDD phase data" ++ Example.nl
                                 ++ Example.scenario) |} in
  (_read_pha Example.fs ∅ "empty.pha" None None ".{}..{}" Example.ph2comp
     None "utf-8" 0).2 = Ret ([], 0)
  ∧ _read_pha fs' ∅ "scenario.pha" None None ".{}..{}" Example.ph2comp
      None "utf-8" 0
    = _read_pha Example.fs ∅ "scenario.pha" None None ".{}..{}"
        Example.ph2comp None "utf-8" 0.
Proof. intros fs'. split; vm_compute; reflexivity. Qed.

(** ** Writing and reading back *)

Section RoundTrip.
Context `{Runtime}.

(** X26. Reading with the table a write returned restores the ids: when
    pairwise different source ids were canonicalized from the initial
    session, and the blocks of a file carry the ids that came back, in
    order, then reading the file with the session's table as [eventid_map]
    gives events named after the source ids. *)
Theorem read_pha_restores_ids (fs : FileSystem) (h : heap)
    (filename : string) (inventory : option Inventory)
    (id_map : option (Dict.t string)) (id_default : string)
    (ph2comp : Dict.t string) (l : nat) (encoding : string) (n n' : nat)
    (catalog : list Event) (text : string) (evids outs : list string)
    (s : session) :
  NoDup evids →
  feed evids initial_session = Ret (outs, s) →
  h !! l = Some (eventid_map s) →
  read_text fs filename encoding = Some text →
  (λ block, list.last (header_tokens block)) <$> blocks_of text
  = Some <$> outs →
  (_read_pha fs h filename inventory id_map id_default ph2comp (Some l)
     encoding n).2 = Ret (catalog, n') →
  resource_id <$> catalog = (λ e, "smi:local/event/" ++ e) <$> evids.
Proof.
  intros Hnd Hfeed Hl Htext Hids Hrun.
  destruct (read_pha_ids _ _ _ _ _ _ _ _ _ _ _ _ _ Htext Hrun)
    as [Hlen Hall].
  destruct (feed_fresh_outputs evids initial_session s outs Hnd
              (λ _ _, eq_refl) Hfeed) as (_ & Hlen' & _).
  assert (length (blocks_of text) = length outs) as Hlen''.
  { by rewrite <-(length_fmap (λ block, list.last (header_tokens block))),
       Hids, length_fmap. }
  apply list_eq. intros i. rewrite !list_lookup_fmap.
  destruct (blocks_of text !! i) as [block|] eqn:Hblock.
  - destruct (Hall i block Hblock) as (ev & id_ & Hev & Hlast & Hres).
    rewrite Hev. simpl. rewrite Hres, Hl.
    assert (outs !! i = Some id_) as Ho.
    { apply (f_equal (λ x, x !! i)) in Hids.
      rewrite !list_lookup_fmap, Hblock in Hids. simpl in Hids.
      rewrite Hlast in Hids.
      destruct (outs !! i); simpl in Hids; congruence. }
    destruct (lookup_lt_is_Some_2 evids i) as [e He].
    { rewrite <-Hlen'. by eapply lookup_lt_Some. }
    rewrite He. simpl.
    by rewrite (feed_restores evids outs s Hnd Hfeed i e id_ He Ho).
  - apply lookup_ge_None in Hblock.
    rewrite (proj2 (lookup_ge_None catalog i)) by lia.
    rewrite (proj2 (lookup_ge_None evids i)) by lia. done.
Qed.

Context (po : Event → option Origin) (pm : Event → option Magnitude).


End RoundTrip.

Lemma read_pha_restores_ids_witness :
  let s := Session [("x12345", "12345")] ({[ "12345" ]} ∪ ∅) 1000 in
  let h : heap := {[ 7 := eventid_map s ]} in
  ∃ catalog n',
    (_read_pha Example.fs h "scenario.pha" None None ".{}..{}"
       Example.ph2comp (Some 7) "utf-8" 0).2 = Ret (catalog, n')
    ∧ resource_id <$> catalog
      = (λ e, "smi:local/event/" ++ e) <$> ["x12345"].
Proof.
  intros s h.
  assert (∃ catalog n',
            (_read_pha Example.fs h "scenario.pha" None None ".{}..{}"
               Example.ph2comp (Some 7) "utf-8" 0).2 = Ret (catalog, n'))
    as (catalog & n' & Hrun)
    by (eexists _, _; vm_compute; reflexivity).
  exists catalog, n'. split; [exact Hrun|].
  apply (read_pha_restores_ids (H := Example.runtime) Example.fs h
           "scenario.pha" None None ".{}..{}" Example.ph2comp 7 "utf-8"
           0 n' catalog Example.scenario ["x12345"] ["12345"] s).
  - apply NoDup_singleton.
  - vm_compute. reflexivity.
  - reflexivity.
  - reflexivity.
  - vm_compute. reflexivity.
  - exact Hrun.
Defined.


